(** * The retrieval core of capillary-chatbot: chunker, index builder, retriever

    A shallow embedding of
    - [scripts/chunking.py]        ([chunk_text]),
    - [scripts/dataframe_utils.py] ([create_dataframe]),
    - [scripts/embedding_index.py] ([build_faiss_index]),
    - [app.py]                     (module-level load, [retrieve_docs]),
    together with the properties the specification states about them. *)

From Stdlib Require Import ZArith NArith Lia SpecFloat.
From stdpp Require Import base list strings pretty gmap sorting.

Local Open Scope Z_scope.

(** ** Python strings

    A Python [str] is a sequence of Unicode code points. *)

Definition char : Type := N.
Definition str : Type := list char.

(** A string literal, read as the code points of its bytes (ASCII text). *)
Definition py (s : string) : str :=
  map Ascii.N_of_ascii (String.list_ascii_of_string s).

(** [str.isspace] on one code point, which is also the class [\s] of [re]
    on a [str] pattern: both go through [Py_UNICODE_ISSPACE]. *)
Definition isspace (c : char) : bool :=
  (((9 <=? c) && (c <=? 13)) || ((28 <=? c) && (c <=? 32))
   || (c =? 133) || (c =? 160) || (c =? 5760)
   || ((8192 <=? c) && (c <=? 8202))
   || (c =? 8232) || (c =? 8233) || (c =? 8239) || (c =? 8287)
   || (c =? 12288))%N.

(** The character class [[.!?]]. *)
Definition is_terminal (c : char) : bool :=
  ((c =? 46) || (c =? 33) || (c =? 63))%N.

Definition space : str := [32%N].

(** [s.lstrip()], [s.rstrip()] and [s.strip()] with no argument. *)
Fixpoint lstrip (s : str) : str :=
  match s with
  | [] => []
  | c :: s' => if isspace c then lstrip s' else s
  end.

Definition rstrip (s : str) : str := rev (lstrip (rev s)).

Definition strip (s : str) : str := rstrip (lstrip s).

(** [sep.join(l)]. *)
Fixpoint join (sep : str) (l : list str) : str :=
  match l with
  | [] => []
  | s :: rest =>
      match rest with
      | [] => s
      | _ :: _ => s ++ sep ++ join sep rest
      end
  end.

(** ** Python slicing [l[start:stop]] with integer bounds of either sign *)

Definition clamp_index (n i : Z) : Z :=
  if i <? 0 then Z.max (i + n) 0 else Z.min i n.

Definition py_slice {A} (l : list A) (start stop : Z) : list A :=
  let n := Z.of_nat (length l) in
  let lo := clamp_index n start in
  let hi := clamp_index n stop in
  take (Z.to_nat (hi - lo)) (drop (Z.to_nat lo) l).

(** ** [re.split(r'(?<=[.!?])\s+', text)]

    The pattern has no group and never matches the empty string, so the
    result is the text between consecutive matches, the text before the
    first and the text after the last one.  A match starts at a whitespace
    character whose predecessor is in [[.!?]] and runs over the whole
    whitespace run.  [split_scan] reads the text left to right:
    [in_match] says that the scan is inside a match, [prev_terminal] that
    the character just read is in [[.!?]], and [piece] is the text read
    since the end of the last match. *)

Fixpoint split_scan (in_match prev_terminal : bool) (piece : str) (s : str)
  : list str :=
  match s with
  | [] => [piece]
  | c :: s' =>
      if isspace c && (in_match || prev_terminal)
      then if in_match
           then split_scan true false piece s'
           else piece :: split_scan true false [] s'
      else split_scan false (is_terminal c) (piece ++ [c]) s'
  end.

Definition re_split (text : str) : list str :=
  split_scan false false [] text.

(** ** [chunk_text] (scripts/chunking.py) *)

Module Chunker.

(** The variables the [while] loop updates. *)
Record loop_state := LoopState { start : Z; chunks : list str }.

(** The loop condition [start < len(sentences)]. *)
Definition loop_cond (sentences : list str) (st : loop_state) : bool :=
  start st <? Z.of_nat (length sentences).

(** One run of the loop body. *)
Definition loop_body (sentences : list str) (chunk_size overlap : Z)
    (st : loop_state) : loop_state :=
  let end_ := start st + chunk_size in
  let chunk_sentences := py_slice sentences (start st) end_ in
  let chunk := strip (join space chunk_sentences) in
  {| start := start st + (chunk_size - overlap);
     chunks := match chunk with
               | [] => chunks st
               | _ :: _ => chunks st ++ [chunk]
               end |}.

(** The [while] loop, run for at most [fuel] iterations; [None] when the
    loop has not been left by then. *)
Fixpoint while_loop (fuel : nat) (sentences : list str)
    (chunk_size overlap : Z) (st : loop_state) : option (list str) :=
  match fuel with
  | O => None
  | S fuel' =>
      if loop_cond sentences st
      then while_loop fuel' sentences chunk_size overlap
             (loop_body sentences chunk_size overlap st)
      else Some (chunks st)
  end.

Definition init : loop_state := {| start := 0; chunks := [] |}.

Definition chunk_text_fuel (fuel : nat) (text : str) (chunk_size overlap : Z)
  : option (list str) :=
  while_loop fuel (re_split text) chunk_size overlap init.

(** One iteration as a transition: the condition holds and the body runs. *)
Definition loop_step (sentences : list str) (chunk_size overlap : Z)
    (st st' : loop_state) : Prop :=
  loop_cond sentences st = true
  ∧ st' = loop_body sentences chunk_size overlap st.

(** The states the loop of [chunk_text] passes through. *)
Definition reachable (text : str) (chunk_size overlap : Z)
    (st : loop_state) : Prop :=
  rtc (loop_step (re_split text) chunk_size overlap) init st.

(** [chunk_text(text, chunk_size, overlap)] returns [res]. *)
Definition returns (text : str) (chunk_size overlap : Z) (res : list str)
  : Prop :=
  ∃ fuel, chunk_text_fuel fuel text chunk_size overlap = Some res.

(** [chunk_text(text, chunk_size, overlap)] never leaves its loop. *)
Definition diverges (text : str) (chunk_size overlap : Z) : Prop :=
  ∀ fuel, chunk_text_fuel fuel text chunk_size overlap = None.

End Chunker.

(** ** Whitespace, trimming and occurrence *)

Definition blank (s : str) : Prop := Forall (λ c, isspace c = true) s.

(** No whitespace at the left end. *)
Definition starts_clean (s : str) : Prop :=
  match s with
  | [] => True
  | c :: _ => isspace c = false
  end.

(** No whitespace at the right end. *)
Definition ends_clean (s : str) : Prop := starts_clean (rev s).

(** [s] occurs in [t] as a contiguous part. *)
Definition occurs_in (s t : str) : Prop := ∃ pre post, t = pre ++ s ++ post.

(** ** Sentences: what the split computes

    [sentences_of text l] reads the boundary rule of the specification:
    the text is cut right after a character of [[.!?]] that is followed by
    whitespace, and the whole whitespace run between two sentences is
    left out. *)

Definition ends_terminalb (s : str) : bool :=
  match last s with
  | Some c => is_terminal c
  | None => false
  end.

(** Inside [s] no character of [[.!?]] is directly followed by whitespace. *)
Definition no_boundary (s : str) : Prop :=
  ∀ a c d b, s = a ++ c :: d :: b → is_terminal c = true → isspace d = false.

Inductive sentences_of : str → list str → Prop :=
| sentences_last s :
    no_boundary s → sentences_of s [s]
| sentences_cons piece ws rest l :
    no_boundary piece → ends_terminalb piece = true →
    ws ≠ [] → blank ws → starts_clean rest →
    sentences_of rest l →
    sentences_of (piece ++ ws ++ rest) (piece :: l).

(** ** The sliding window, as the specification words it

    The windows start at the sentences 0, step, 2*step, ... for as long as
    the start lies below the number of sentences, where
    step = chunk_size - overlap; a window holds [chunk_size] consecutive
    sentences, fewer when the sequence ends before; a chunk is the window
    joined with single spaces and trimmed, and the chunks that come out
    empty are left out. *)

Definition window_count (n step : nat) : nat := ((n + step - 1) / step)%nat.

Definition window_starts (n step : nat) : list nat :=
  (λ k, k * step)%nat <$> seq 0 (window_count n step).

Definition window (sentences : list str) (size from : nat) : list str :=
  take size (drop from sentences).

Definition chunk_of (sentences : list str) (size from : nat) : str :=
  strip (join space (window sentences size from)).

Definition sliding_chunks (sentences : list str) (chunk_size overlap : nat)
  : list str :=
  filter (λ c, c ≠ [])
    (chunk_of sentences chunk_size
       <$> window_starts (length sentences) (chunk_size - overlap)).

(** A chunk as the loop appends it: not empty and equal to its own trim. *)
Definition trimmed (c : str) : Prop := c ≠ [] ∧ strip c = c.

(** The coverage property in its first wording: for a text that is not empty the chunker returns a
    sequence of chunks that is not empty, has no blank chunk, and has every
    sentence of the text inside one of its chunks. *)
Definition covering_chunks_as_stated (text : str) (chunk_size overlap : Z)
  : Prop :=
  ∃ res, Chunker.returns text chunk_size overlap res
         ∧ res ≠ []
         ∧ Forall (λ c, ¬ blank c) res
         ∧ ∀ s, s ∈ re_split text → ∃ c, c ∈ res ∧ occurs_in s c.

(** ** The index builder and the retriever

    The embedding model ([SentenceTransformer.encode]), the division of a
    vector by its L2 norm (numpy, on floats) and the search of the index
    ([faiss.IndexFlatIP.search]) are libraries outside the repository: the
    model takes them as parameters, [encode], [normalize] and [search], over
    a type [vec] of vectors.  A flat index is the list of the vectors added
    to it, in the order of insertion; [search index queries k] is the array
    [I] of labels, one row of [k] labels per query. *)

(** The exceptions the modelled code can raise. *)
Inductive exn : Type :=
| KeyError (label : Z)     (* [df.loc[i]] with [i] not an index label *)
| TypeError                (* [int(None)] *)
| IndexError               (* [I[0]] on an array without rows *)
| FileNotFoundError.       (* an artifact that cannot be read *)

Inductive result (A : Type) : Type :=
| Ok (a : A)
| Raise (e : exn).
Arguments Ok {A} a.
Arguments Raise {A} e.

Global Instance result_ret : MRet result := λ A a, Ok a.
Global Instance result_bind : MBind result := λ A B f r,
  match r with
  | Ok a => f a
  | Raise e => Raise e
  end.

(** The separator ["\n\n"]. *)
Definition blank_line : str := [10%N; 10%N].

(** The module-level state of [app.py]: the index, the chunk table (the
    column ["text"] by index label) and the id mapping (a JSON object: its
    keys are strings). *)
Record context (vec : Type) : Type := Context {
  index : list vec;
  df : gmap Z str;
  id_mapping : gmap string Z
}.
Arguments Context {vec} index df id_mapping.
Arguments index {vec} c.
Arguments df {vec} c.
Arguments id_mapping {vec} c.

(** The three persisted artifacts, each present or not. *)
Record artifacts (vec : Type) : Type := Artifacts {
  faiss_index_file : option (list vec);
  csv_file : option (gmap Z str);
  id_mapping_file : option (gmap string Z)
}.
Arguments Artifacts {vec} faiss_index_file csv_file id_mapping_file.
Arguments faiss_index_file {vec} a.
Arguments csv_file {vec} a.
Arguments id_mapping_file {vec} a.

(** Reading one artifact. *)
Definition read_file {A} (file : option A) : result A :=
  match file with
  | Some content => Ok content
  | None => Raise FileNotFoundError
  end.

(** The module-level load of [app.py]: [faiss.read_index], [pd.read_csv],
    [json.load], one after the other. *)
Definition load {vec} (files : artifacts vec) : result (context vec) :=
  index ← read_file (faiss_index_file files);
  df ← read_file (csv_file files);
  id_mapping ← read_file (id_mapping_file files);
  mret (Context index df id_mapping).

(** [create_dataframe] (scripts/dataframe_utils.py): the chunk table with
    the index labels 0, 1, ..., and the id mapping [{i: i for i in
    range(len(chunks))}] as [json.dump] writes it, its keys turned into
    strings. *)
Definition json_dump (m : gmap Z Z) : gmap string Z := kmap pretty m.

Definition create_dataframe (chunks : list str)
  : gmap Z str * gmap string Z :=
  let df := map_seqZ 0 chunks in
  let id_mapping : gmap Z Z :=
    list_to_map ((λ i, (i, i)) <$> seqZ 0 (Z.of_nat (length chunks))) in
  (df, json_dump id_mapping).

Section Retrieval.
Context {vec : Type}.
Variable encode : list str → list vec.
Variable normalize : vec → vec.
Variable search : list vec → list vec → Z → list (list Z).

(** [build_faiss_index] (scripts/embedding_index.py): the embeddings,
    each divided by its norm, added to a new flat index. *)
Definition build_faiss_index (chunks : list str) : list vec * list vec :=
  let embeddings := encode chunks in
  let embeddings := normalize <$> embeddings in
  let index := [] ++ embeddings in
  (index, embeddings).

(** [df.loc[int(id_mapping.get(str(idx)))]["text"]]. *)
Definition lookup_text (ctx : context vec) (idx : Z) : result str :=
  match id_mapping ctx !! pretty idx with
  | None => Raise TypeError
  | Some i =>
      match df ctx !! i with
      | Some text => Ok text
      | None => Raise (KeyError i)
      end
  end.

(** The list comprehension of [retrieve_docs]:
    [[lookup_text(idx) for idx in row if str(idx) in id_mapping]]. *)
Fixpoint resolve (ctx : context vec) (row : list Z) : result (list str) :=
  match row with
  | [] => Ok []
  | idx :: rest =>
      if decide (is_Some (id_mapping ctx !! pretty idx))
      then text ← lookup_text ctx idx;
           texts ← resolve ctx rest;
           mret (text :: texts)
      else resolve ctx rest
  end.

(** [retrieve_docs] (app.py). *)
Definition retrieve_docs (ctx : context vec) (query : str) (top_k : Z)
  : result str :=
  let query_vec := encode [query] in
  let query_vec := normalize <$> query_vec in
  let I := search (index ctx) query_vec top_k in
  row ← match I !! 0%nat with
        | Some row => Ok row
        | None => Raise IndexError
        end;
  results ← resolve ctx row;
  mret (join blank_line results).

(** The position has an entry in the id mapping. *)
Definition present (ctx : context vec) (idx : Z) : Prop :=
  is_Some (id_mapping ctx !! pretty idx).

(** The text a position resolves to. *)
Definition text_at (ctx : context vec) (p : Z) (text : str) : Prop :=
  ∃ i, id_mapping ctx !! pretty p = Some i ∧ df ctx !! i = Some text.

(** The text in the loaded table under a label below [n]; nothing for
    any other label. *)
Definition table_text (ctx : context vec) (n : nat) (p : Z) : option str :=
  if decide (0 ≤ p < Z.of_nat n) then df ctx !! p else None.

(** *** What the specification asks of the index and of the artifacts *)

Variable score : Type.
Variable inner : vec → vec → score.
Variable score_lt : score → score → Prop.


(** The inner product of [q] with the vector at [p1] is not below the one
    with the vector at [p2]. *)
Definition not_ranked_after (idx : list vec) (q : vec) (p1 p2 : Z) : Prop :=
  ∃ v1 v2, idx !! Z.to_nat p1 = Some v1 ∧ idx !! Z.to_nat p2 = Some v2
           ∧ ¬ score_lt (inner q v1) (inner q v2).

(** The row a flat inner-product index answers for one query:
    [min k count] distinct positions by descending inner product, equal
    inner products in whatever order the index puts them, then the label
    -1 up to length [k]. *)
Definition flat_ip_row (idx : list vec) (q : vec) (k : Z) (row : list Z)
  : Prop :=
  ∃ hits, row = hits ++ replicate (Z.to_nat k - length hits)%nat (-1)
          ∧ length hits = Nat.min (Z.to_nat k) (length idx)
          ∧ Forall (λ p, 0 ≤ p < Z.of_nat (length idx)) hits
          ∧ NoDup hits
          ∧ StronglySorted (not_ranked_after idx q) hits.


(** The integrity condition on loaded artifacts: as many mapping entries
    as index positions, and every mapped value an id of the chunk table. *)
Definition consistent (ctx : context vec) : Prop :=
  size (id_mapping ctx) = length (index ctx)
  ∧ ∀ key i, id_mapping ctx !! key = Some i → is_Some (df ctx !! i).

End Retrieval.

(** *** A small instance: integer vectors and a brute-force search *)

Module Example.

Definition vec : Type := list Z.

Definition dot (u v : vec) : Z := foldr Z.add 0 (zip_with Z.mul u v).

(** One vector per text, in the order of the texts. *)
Definition encode (texts : list str) : list vec :=
  (λ t, [Z.of_nat (length t); 1]) <$> texts.

Definition normalize (v : vec) : vec := v.

(** Insertion of a position into a list of positions ranked by descending
    score; among equal scores the inserted position goes last. *)
Fixpoint insert_ranked (score_of : Z → Z) (p : Z) (l : list Z) : list Z :=
  match l with
  | [] => [p]
  | x :: l' =>
      if score_of x <? score_of p
      then p :: l
      else x :: insert_ranked score_of p l'
  end.

(** The inner product of the query with the vector at a position. *)
Definition score_of (idx : list vec) (q : vec) (p : Z) : Z :=
  dot q (idx !!! Z.to_nat p).

(** All positions of the index, ranked for the query [q]. *)
Definition ranking (idx : list vec) (q : vec) : list Z :=
  foldl (λ acc p, insert_ranked (score_of idx q) p acc)
    [] (seqZ 0 (Z.of_nat (length idx))).

(** The ranking order on positions, by the scores. *)
Definition outranks (idx : list vec) (q : vec) (p1 p2 : Z) : Prop :=
  score_of idx q p2 < score_of idx q p1
  ∨ (score_of idx q p1 = score_of idx q p2 ∧ p1 < p2).

Definition search_row (idx : list vec) (k : Z) (q : vec) : list Z :=
  let hits := take (Z.to_nat k) (ranking idx q) in
  hits ++ replicate (Z.to_nat k - length hits)%nat (-1).

Definition search (idx : list vec) (queries : list vec) (k : Z)
  : list (list Z) :=
  search_row idx k <$> queries.

(** The artifacts built from three chunks. *)
Definition chunks : list str := [py "A. B."; py "B. C. D."; py "E."].

Definition built : context vec :=
  Context (build_faiss_index encode normalize chunks).1
          (create_dataframe chunks).1
          (create_dataframe chunks).2.

(** Artifacts that do not fit together: two vectors in the index, one
    mapping entry, and its value is not an id of the chunk table. *)
Definition broken_files : artifacts vec :=
  Artifacts (Some [[1; 0]; [0; 1]])
            (Some {[ 0 := py "A." ]})
            (Some {[ "0"%string := 7 ]}).

Definition broken : context vec :=
  Context [[1; 0]; [0; 1]] {[ 0 := py "A." ]} {[ "0"%string := 7 ]}.


End Example.

(** *** An index that answers equal scores latest insertion first *)

Module ExampleTies.

(** Every text gets the same vector. *)
Definition encode (texts : list str) : list Example.vec :=
  (λ _, [1; 1]) <$> texts.

(** Insertion into a ranked list; among equal scores the inserted
    position goes first. *)
Fixpoint insert_ranked (score_of : Z → Z) (p : Z) (l : list Z) : list Z :=
  match l with
  | [] => [p]
  | x :: l' =>
      if score_of x <=? score_of p
      then p :: l
      else x :: insert_ranked score_of p l'
  end.

Definition ranking (idx : list Example.vec) (q : Example.vec) : list Z :=
  foldl (λ acc p, insert_ranked (Example.score_of idx q) p acc)
    [] (seqZ 0 (Z.of_nat (length idx))).

Definition search_row (idx : list Example.vec) (k : Z) (q : Example.vec)
  : list Z :=
  let hits := take (Z.to_nat k) (ranking idx q) in
  hits ++ replicate (Z.to_nat k - length hits)%nat (-1).

Definition search (idx queries : list Example.vec) (k : Z) : list (list Z) :=
  search_row idx k <$> queries.

(** The artifacts built from the three chunks of [Example.chunks]. *)
Definition built : context Example.vec :=
  Context (build_faiss_index encode Example.normalize Example.chunks).1
          (create_dataframe Example.chunks).1
          (create_dataframe Example.chunks).2.

End ExampleTies.

(** ** The prompt, the model call and the chat route (app.py) *)

(** The text of a chunk by its label, for a table with the labels
    0, 1, ...: no text for a label outside the table. *)
Definition label_text (chunks : list str) (p : Z) : option str :=
  if decide (0 ≤ p) then chunks !! Z.to_nat p else None.

Definition nl : str := [10%N].

Definition no_context : str :=
  py "No relevant information found in CapillaryDocs.".

(** The string [build_prompt] returns, for the context it has settled
    on. *)
Definition prompt_with (user_input context : str) : str :=
  py "You are HelperBot, an AI assistant for Capillary Technologies documentation." ++ nl
  ++ py "Using the context below, provide a **detailed, step-by-step, structured answer** to the user's question." ++ nl
  ++ py "Include headings, numbered steps, API endpoints if relevant, and explain clearly so a user can follow instructions." ++ nl
  ++ py "If the answer is not found in the context, respond politely that you don't know." ++ nl ++ nl
  ++ py "Context:" ++ nl ++ context ++ nl ++ nl
  ++ py "User Question:" ++ nl ++ user_input ++ nl ++ nl
  ++ py "Answer:".

(** [build_prompt] (app.py). *)
Definition build_prompt (user_input context : str) : str :=
  let context :=
    match strip context with
    | [] => no_context
    | _ :: _ => context
    end in
  prompt_with user_input context.

(** What leaves the route [/chat]: [AttributeError] for a body without
    [.get] or a message without [.strip], or what [retrieve_docs]
    raised. *)
Inductive chat_error : Type :=
| AttributeError
| RetrievalError (e : exn).

Inductive chat_result : Type :=
| Answer (answer : str)
| Fails (e : chat_error).

(** A parsed JSON value, as [resp.json()] gives it.  Of a number the code
    only uses the truth value, so numbers are a parameter; an object is
    the list of the items of the dict. *)
#[warnings="-register-all"] Inductive json (number : Type) : Type :=
| JNull
| JBool (b : bool)
| JNumber (n : number)
| JString (s : str)
| JArray (items : list (json number))
| JObject (fields : list (str * json number)).
Arguments JNull {number}.
Arguments JBool {number} b.
Arguments JNumber {number} n.
Arguments JString {number} s.
Arguments JArray {number} items.
Arguments JObject {number} fields.

(** [p] is a prefix of [s]; [p in s] for two strings. *)
Fixpoint prefixb (p s : str) : bool :=
  match p, s with
  | [], _ => true
  | _ :: _, [] => false
  | a :: p', b :: s' => (a =? b)%N && prefixb p' s'
  end.

Fixpoint infixb (p s : str) : bool :=
  prefixb p s
  || match s with
     | [] => false
     | _ :: s' => infixb p s'
     end.

(** The value under a key of a dict. *)
Fixpoint dict_get {A} (fields : list (str * A)) (key : str) : option A :=
  match fields with
  | [] => None
  | (k, v) :: rest => if decide (k = key) then Some v else dict_get rest key
  end.

Section Completion.
Context {number : Type}.
Variable number_truthy : number → bool.

(** In this section [None] stands for an exception raised inside the
    [try] block of [query_mistral]: the handler treats all alike. *)

(** The truth value of a Python value. *)
Definition truthy (v : json number) : bool :=
  match v with
  | JNull => false
  | JBool b => b
  | JNumber n => number_truthy n
  | JString s => bool_decide (s ≠ [])
  | JArray items => bool_decide (items ≠ [])
  | JObject fields => bool_decide (fields ≠ [])
  end.

(** [data.get("choices", [])]. *)
Definition get_choices (data : json number) : option (json number) :=
  match data with
  | JObject fields => Some (default (JArray []) (dict_get fields (py "choices")))
  | _ => None
  end.

(** [v[0]]. *)
Definition item_0 (v : json number) : option (json number) :=
  match v with
  | JArray (x :: _) => Some x
  | JString (c :: _) => Some (JString [c])
  | _ => None
  end.

(** ["text" in v]. *)
Definition contains_text (v : json number) : option bool :=
  match v with
  | JObject fields => Some (bool_decide (is_Some (dict_get fields (py "text"))))
  | JArray items =>
      Some (existsb (λ x, match x with
                          | JString s => bool_decide (s = py "text")
                          | _ => false
                          end) items)
  | JString s => Some (infixb (py "text") s)
  | _ => None
  end.

(** [v["text"]]. *)
Definition item_text (v : json number) : option (json number) :=
  match v with
  | JObject fields => dict_get fields (py "text")
  | _ => None
  end.

(** [v.strip()]. *)
Definition strip_value (v : json number) : option str :=
  match v with
  | JString s => Some (strip s)
  | _ => None
  end.

(** The HTTP call followed by [resp.json()]: the parsed body for a
    prompt, or a failure. *)
Variable post : str → option (json number).

(** The [try] block of [query_mistral]. *)
Definition query_mistral_try (prompt : str) : option str :=
  data ← post prompt;
  choices ← get_choices data;
  if truthy choices
  then c0 ← item_0 choices;
       has_text ← contains_text c0;
       if has_text : bool
       then text ← item_text c0; strip_value text
       else Some (py "No response from model.")
  else Some (py "No response from model.").

(** [query_mistral] (app.py). *)
Definition query_mistral (prompt : str) : str :=
  match query_mistral_try prompt with
  | Some answer => answer
  | None => py "Error connecting to model."
  end.

Context {vec : Type}.
Variable encode : list str → list vec.
Variable normalize : vec → vec.
Variable search : list vec → list vec → Z → list (list Z).

(** The route [/chat] (app.py).  [body] is [request.json], the parsed body
    of the request; the result is the value under ["answer"] of the reply,
    or the exception that leaves the route. *)
Definition chat (ctx : context vec) (body : json number) : chat_result :=
  match body with
  | JObject fields =>
      match default (JString []) (dict_get fields (py "message")) with
      | JString message =>
          let user_input := strip message in
          match user_input with
          | [] => Answer (py "Please enter a valid question.")
          | _ :: _ =>
              match retrieve_docs encode normalize search ctx user_input 5
              with
              | Raise e => Fails (RetrievalError e)
              | Ok context =>
                  let prompt := build_prompt user_input context in
                  let answer := query_mistral prompt in
                  Answer answer
              end
          end
      | _ => Fails AttributeError
      end
  | _ => Fails AttributeError
  end.

End Completion.

(** *** An instance of the model call *)

Module ExampleChat.

Definition number_truthy (n : Z) : bool := negb (n =? 0).

(** A completion service that answers every prompt with one choice. *)
Definition post (prompt : str) : option (json Z) :=
  Some (JObject [(py "id", JString (py "cmpl-1"));
                 (py "choices",
                  JArray [JObject [(py "index", JNumber 0);
                                   (py "text", JString (py " Use the API. "))]])]).

End ExampleChat.

(** ** The normalization in float32

    [v / np.linalg.norm(v, axis=1, keepdims=True)] on one row of a float32
    array: the norm is [sqrt(add.reduce(v * v))], all in binary32.  The
    sum is taken left to right here; numpy adds pairwise, which can change
    the rounding but not whether the sum is zero. *)

Module Float32.

Definition prec : Z := 24.
Definition emax : Z := 128.

Definition float32 : Type := spec_float.

Definition zero : float32 := S754_zero false.
Definition mul : float32 → float32 → float32 := SFmul prec emax.
Definition add : float32 → float32 → float32 := SFadd prec emax.
Definition div : float32 → float32 → float32 := SFdiv prec emax.
Definition sqrt : float32 → float32 := SFsqrt prec emax.

Definition norm (v : list float32) : float32 :=
  sqrt (foldl add zero ((λ x, mul x x) <$> v)).

Definition normalize (v : list float32) : list float32 :=
  (λ x, div x (norm v)) <$> v.

(** A component that is NaN or an infinity. *)
Definition not_a_number_or_infinite (y : float32) : Prop :=
  y = S754_nan ∨ ∃ s, y = S754_infinity s.

(** An embedder that gives every text the zero vector of dimension 2. *)
Definition zero_encoder (texts : list str) : list (list float32) :=
  (λ _, [zero; zero]) <$> texts.

End Float32.

(** * Proofs *)

(** ** Facts about whitespace and trimming *)

Lemma terminal_not_space c : is_terminal c = true → isspace c = false.
Proof.
  unfold is_terminal. intros H.
  repeat (apply orb_prop in H; destruct H as [H|H]);
    apply N.eqb_eq in H; subst c; reflexivity.
Qed.

Lemma lstrip_app_clean a c b :
  isspace c = false → lstrip (a ++ c :: b) = lstrip a ++ c :: b.
Proof.
  intros Hc. induction a as [|x a IH]; simpl.
  - by rewrite Hc.
  - destruct (isspace x); [exact IH | reflexivity].
Qed.

Lemma lstrip_blank s : blank s → lstrip s = [].
Proof.
  induction 1 as [|c s Hc _ IH]; simpl; [done|]. by rewrite Hc.
Qed.

Lemma lstrip_nil_blank s : lstrip s = [] → blank s.
Proof.
  induction s as [|c s IH]; simpl; intros H; [constructor|].
  destruct (isspace c) eqn:Hc; [|discriminate].
  constructor; [done | by apply IH].
Qed.

Lemma lstrip_split s : ∃ ws, s = ws ++ lstrip s ∧ blank ws.
Proof.
  induction s as [|c s (ws & Heq & Hws)]; simpl.
  - exists []. split; [done | constructor].
  - destruct (isspace c) eqn:Hc.
    + exists (c :: ws). split; [simpl; congruence | by constructor].
    + exists []. split; [done | constructor].
Qed.

Lemma lstrip_starts_clean s : starts_clean (lstrip s).
Proof.
  induction s as [|c s IH]; simpl; [done|].
  destruct (isspace c) eqn:Hc; [exact IH | exact Hc].
Qed.

Lemma lstrip_fix s : starts_clean s → lstrip s = s.
Proof. destruct s as [|c s]; simpl; [done|]. by intros ->. Qed.

Lemma rstrip_ends_clean s : ends_clean (rstrip s).
Proof.
  unfold ends_clean, rstrip. rewrite rev_involutive. apply lstrip_starts_clean.
Qed.

Lemma rstrip_fix s : ends_clean s → rstrip s = s.
Proof.
  unfold ends_clean, rstrip. intros H. rewrite lstrip_fix by done.
  apply rev_involutive.
Qed.

Lemma rstrip_app_clean a c b :
  isspace c = false → rstrip (a ++ c :: b) = a ++ c :: rstrip b.
Proof.
  intros Hc. unfold rstrip.
  rewrite rev_app_distr. simpl rev. rewrite <- app_assoc. simpl.
  rewrite lstrip_app_clean by done.
  rewrite rev_app_distr. simpl rev. rewrite rev_involutive.
  by rewrite <- app_assoc.
Qed.

Lemma rstrip_starts_clean s : starts_clean s → starts_clean (rstrip s).
Proof.
  destruct s as [|c s]; [done|]. simpl. intros Hc.
  pose proof (rstrip_app_clean [] c s Hc) as H. simpl in H. by rewrite H.
Qed.

Lemma rstrip_split s : ∃ ws, s = rstrip s ++ ws ∧ blank ws.
Proof.
  destruct (lstrip_split (rev s)) as (ws & Heq & Hws).
  exists (rev ws). split.
  - unfold rstrip. rewrite <- rev_app_distr, <- Heq. by rewrite rev_involutive.
  - unfold blank in *. by apply Forall_rev.
Qed.

Lemma strip_starts_clean s : starts_clean (strip s).
Proof. apply rstrip_starts_clean, lstrip_starts_clean. Qed.

Lemma strip_ends_clean s : ends_clean (strip s).
Proof. apply rstrip_ends_clean. Qed.

Lemma strip_fix s : starts_clean s → ends_clean s → strip s = s.
Proof.
  intros H1 H2. unfold strip. rewrite lstrip_fix by done. by apply rstrip_fix.
Qed.

Lemma strip_idemp s : strip (strip s) = strip s.
Proof. apply strip_fix; [apply strip_starts_clean | apply strip_ends_clean]. Qed.

Lemma strip_blank s : blank s → strip s = [].
Proof. intros H. unfold strip. by rewrite lstrip_blank. Qed.

Lemma strip_nil_blank s : strip s = [] → blank s.
Proof.
  unfold strip. intros H.
  destruct (lstrip_split s) as (ws & Heq & Hws).
  destruct (rstrip_split (lstrip s)) as (ws' & Heq' & Hws').
  rewrite H in Heq'. simpl in Heq'. rewrite Heq, Heq'.
  unfold blank in *. by apply Forall_app.
Qed.

Lemma strip_split s : ∃ l r, s = l ++ strip s ++ r ∧ blank l ∧ blank r.
Proof.
  destruct (lstrip_split s) as (l & Heq & Hl).
  destruct (rstrip_split (lstrip s)) as (r & Heq' & Hr).
  exists l, r. unfold strip. by rewrite <- Heq', <- Heq.
Qed.

(** Trimming around a part that is itself trimmed and not empty only
    removes whitespace outside that part. *)
Lemma strip_around a core b :
  core ≠ [] → starts_clean core → ends_clean core →
  strip (a ++ core ++ b) = lstrip a ++ core ++ rstrip b.
Proof.
  intros Hne Hs He. unfold strip.
  destruct core as [|c r]; [done|]. simpl in Hs.
  change ((c :: r) ++ b) with (c :: (r ++ b)).
  rewrite lstrip_app_clean by done.
  destruct (rev (c :: r)) as [|d q] eqn:Hrev.
  { apply (f_equal (@length _)) in Hrev. rewrite length_rev in Hrev. done. }
  assert (Hd : isspace d = false).
  { unfold ends_clean in He. by rewrite Hrev in He. }
  assert (Hcr : c :: r = rev q ++ [d]).
  { rewrite <- (rev_involutive (c :: r)), Hrev. reflexivity. }
  change (c :: r ++ b) with ((c :: r) ++ b). rewrite Hcr.
  rewrite <- !app_assoc. simpl.
  rewrite (app_assoc (lstrip a) (rev q) (d :: b)).
  rewrite rstrip_app_clean by done.
  by rewrite <- app_assoc.
Qed.

Lemma strip_occurs s pre post :
  strip s ≠ [] → occurs_in (strip s) (strip (pre ++ s ++ post)).
Proof.
  intros Hne. destruct (strip_split s) as (l & r & Heq & _ & _).
  rewrite Heq at 2.
  replace (pre ++ (l ++ strip s ++ r) ++ post)
    with ((pre ++ l) ++ strip s ++ (r ++ post))
    by (by rewrite <- !app_assoc).
  rewrite strip_around;
    [| done | apply strip_starts_clean | apply strip_ends_clean].
  by eexists _, _.
Qed.

Lemma strip_occurs_ne s pre post :
  strip s ≠ [] → strip (pre ++ s ++ post) ≠ [].
Proof.
  intros Hne Hnil. destruct (strip_occurs s pre post Hne) as (a & b & Heq).
  rewrite Hnil in Heq. symmetry in Heq.
  apply app_eq_nil in Heq as [_ Heq]. apply app_eq_nil in Heq as [Heq _]. done.
Qed.

Lemma join_elem (sep : str) (l : list str) (s : str) :
  s ∈ l → ∃ pre post, join sep l = pre ++ s ++ post.
Proof.
  induction l as [|x l IH]; [by intros ?%elem_of_nil|].
  intros [->|Hin]%elem_of_cons.
  - destruct l as [|y l]; simpl.
    + exists [], []. by rewrite app_nil_r.
    + by exists [], (sep ++ join sep (y :: l)).
  - destruct (IH Hin) as (pre & post & Heq).
    destruct l as [|y l]; [by apply elem_of_nil in Hin|].
    change (join sep (x :: y :: l)) with (x ++ sep ++ join sep (y :: l)).
    rewrite Heq. exists (x ++ sep ++ pre), post. by rewrite <- !app_assoc.
Qed.

Lemma ends_terminalb_snoc p c : ends_terminalb (p ++ [c]) = is_terminal c.
Proof. unfold ends_terminalb. by rewrite last_snoc. Qed.

Lemma ends_terminalb_inv p :
  ends_terminalb p = true → ∃ a x, p = a ++ [x] ∧ is_terminal x = true.
Proof.
  destruct p as [|y p] using rev_ind; [done|].
  rewrite ends_terminalb_snoc. eauto.
Qed.

Lemma no_boundary_short s : (length s ≤ 1)%nat → no_boundary s.
Proof.
  intros Hlen a c d b -> _. rewrite length_app in Hlen. simpl in Hlen. lia.
Qed.

Lemma no_boundary_snoc piece c :
  no_boundary piece →
  (ends_terminalb piece = true → isspace c = false) →
  no_boundary (piece ++ [c]).
Proof.
  intros Hnb Hc a x d b Heq Hx.
  destruct b as [|y b _] using rev_ind.
  - change (a ++ [x; d]) with (a ++ [x] ++ [d]) in Heq.
    rewrite app_assoc in Heq. apply app_inj_tail in Heq as [-> ->].
    apply Hc. by rewrite ends_terminalb_snoc.
  - change (a ++ x :: d :: b ++ [y]) with (a ++ (x :: d :: b) ++ [y]) in Heq.
    rewrite app_assoc in Heq. apply app_inj_tail in Heq as [-> _].
    by eapply Hnb.
Qed.

Lemma no_boundary_prefix s t : no_boundary (s ++ t) → no_boundary s.
Proof.
  intros Hnb a c d b -> Hc. eapply (Hnb a c d (b ++ t)); [|done].
  by rewrite <- app_assoc.
Qed.

(** While scanning a text without boundary, no match starts. *)
Lemma no_boundary_next p c t :
  no_boundary (p ++ c :: t) → isspace c && ends_terminalb p = false.
Proof.
  intros Hnb. destruct (ends_terminalb p) eqn:Hp; [|apply andb_false_r].
  apply ends_terminalb_inv in Hp as (a & x & -> & Hx).
  rewrite <- app_assoc in Hnb. rewrite (Hnb a x c t); done.
Qed.

Lemma split_scan_sound s :
  (∀ piece, no_boundary piece →
     sentences_of (piece ++ s) (split_scan false (ends_terminalb piece) piece s))
  ∧ (∃ ws rest, s = ws ++ rest ∧ blank ws ∧ starts_clean rest
       ∧ split_scan true false [] s = re_split rest
       ∧ sentences_of rest (re_split rest)).
Proof.
  induction s as [|c s [IH1 (ws & rest & Heq & Hws & Hrest & Hscan & Hsent)]].
  - split.
    + intros piece Hnb. rewrite app_nil_r. by constructor.
    + exists [], []. repeat split; try done; try constructor.
      apply no_boundary_short; simpl; lia.
  - split.
    + intros piece Hnb. simpl.
      destruct (isspace c) eqn:Hc, (ends_terminalb piece) eqn:Hp; simpl.
      * rewrite Hscan, Heq.
        change (piece ++ c :: ws ++ rest) with (piece ++ (c :: ws) ++ rest).
        constructor; try done. by constructor.
      * replace (piece ++ c :: s) with ((piece ++ [c]) ++ s)
          by (by rewrite <- app_assoc).
        rewrite <- (ends_terminalb_snoc piece c). apply IH1.
        apply no_boundary_snoc; [done | congruence].
      * replace (piece ++ c :: s) with ((piece ++ [c]) ++ s)
          by (by rewrite <- app_assoc).
        rewrite <- (ends_terminalb_snoc piece c). apply IH1.
        by apply no_boundary_snoc.
      * replace (piece ++ c :: s) with ((piece ++ [c]) ++ s)
          by (by rewrite <- app_assoc).
        rewrite <- (ends_terminalb_snoc piece c). apply IH1.
        by apply no_boundary_snoc.
    + destruct (isspace c) eqn:Hc.
      * exists (c :: ws), rest. simpl. rewrite Hc. simpl.
        repeat split; try done; [congruence | by constructor].
      * assert (Hre : re_split (c :: s)
                      = split_scan false (ends_terminalb [c]) [c] s).
        { unfold re_split. simpl. by rewrite Hc. }
        exists [], (c :: s). simpl. rewrite Hc. simpl.
        repeat split; try done; try constructor.
        rewrite Hre. apply (IH1 [c]). apply no_boundary_short; simpl; lia.
Qed.

(** The split of a text is its sequence of sentences. *)
Lemma re_split_sentences text : sentences_of text (re_split text).
Proof.
  destruct (split_scan_sound text) as [H _].
  apply (H []). apply no_boundary_short; simpl; lia.
Qed.

Lemma split_scan_piece piece : ∀ p0 s,
  no_boundary (p0 ++ piece) →
  split_scan false (ends_terminalb p0) p0 (piece ++ s)
  = split_scan false (ends_terminalb (p0 ++ piece)) (p0 ++ piece) s.
Proof.
  induction piece as [|c piece IH]; intros p0 s Hnb.
  - by rewrite app_nil_r.
  - simpl. rewrite (no_boundary_next p0 c piece Hnb).
    rewrite <- (ends_terminalb_snoc p0 c).
    replace (p0 ++ c :: piece) with ((p0 ++ [c]) ++ piece)
      by (by rewrite <- app_assoc).
    apply IH. by rewrite <- app_assoc.
Qed.

Lemma split_scan_in_match ws rest :
  blank ws → starts_clean rest →
  split_scan true false [] (ws ++ rest) = re_split rest.
Proof.
  intros Hws Hrest. induction Hws as [|w ws Hw _ IH]; simpl.
  - destruct rest as [|c r]; [done|]. simpl in Hrest.
    unfold re_split. simpl. by rewrite Hrest.
  - by rewrite Hw.
Qed.

(** The sequence of sentences of a text is unique: it is the split. *)
Lemma sentences_of_unique text l : sentences_of text l → l = re_split text.
Proof.
  induction 1 as [s Hnb | piece ws rest l Hnb Hend Hne Hws Hrest _ IH].
  - unfold re_split. rewrite <- (app_nil_r s) at 2.
    change false with (ends_terminalb []) at 2.
    rewrite split_scan_piece by done. done.
  - unfold re_split. change false with (ends_terminalb []) at 2.
    rewrite split_scan_piece by done. simpl. rewrite Hend.
    destruct ws as [|w ws]; [done|].
    apply Forall_cons in Hws as [Hw Hws]. simpl. rewrite Hw. simpl.
    rewrite split_scan_in_match by done. by rewrite IH.
Qed.

Lemma re_split_cons text : ∃ s0 l, re_split text = s0 :: l.
Proof. destruct (re_split_sentences text); eauto. Qed.

Lemma re_split_length text : (1 ≤ length (re_split text))%nat.
Proof. destruct (re_split_cons text) as (s0 & l & ->). simpl. lia. Qed.

Lemma ends_terminalb_not_blank p : ends_terminalb p = true → ¬ blank p.
Proof.
  intros (a & x & -> & Hx)%ends_terminalb_inv Hb.
  apply Forall_app in Hb as [_ Hb]. apply Forall_cons in Hb as [Hb _].
  apply terminal_not_space in Hx. congruence.
Qed.

(** A text with a character that is not whitespace has such a character
    in its first sentence. *)
Lemma re_split_first_not_blank text s0 l :
  re_split text = s0 :: l → ¬ blank text → ¬ blank s0.
Proof.
  intros Heq Hnb. pose proof (re_split_sentences text) as Hs.
  rewrite Heq in Hs. inversion Hs; subst; [done|].
  by apply ends_terminalb_not_blank.
Qed.

(** ** The loop of [chunk_text] *)

Section ChunkerLoop.
Import Chunker.

Variable sentences : list str.
Variables chunk_size overlap : Z.

Lemma while_loop_mono fuel : ∀ fuel' st res,
  (fuel ≤ fuel')%nat →
  while_loop fuel sentences chunk_size overlap st = Some res →
  while_loop fuel' sentences chunk_size overlap st = Some res.
Proof.
  induction fuel as [|fuel IH]; intros fuel' st res Hle H; [done|].
  destruct fuel' as [|fuel']; [lia|]. simpl in *.
  destruct (loop_cond sentences st); [|done].
  apply IH; [lia | done].
Qed.

Lemma while_loop_reaches fuel : ∀ st res,
  while_loop fuel sentences chunk_size overlap st = Some res →
  ∃ st', rtc (loop_step sentences chunk_size overlap) st st'
         ∧ loop_cond sentences st' = false ∧ res = chunks st'.
Proof.
  induction fuel as [|fuel IH]; intros st res H; [done|]. simpl in H.
  destruct (loop_cond sentences st) eqn:Hc.
  - destruct (IH _ _ H) as (st' & Hrtc & Hexit & ->).
    exists st'. split; [|done]. by eapply rtc_l.
  - exists st. inversion H. by split.
Qed.

Lemma loop_body_trimmed st :
  Forall trimmed (chunks st) →
  Forall trimmed (chunks (loop_body sentences chunk_size overlap st)).
Proof.
  intros H. unfold loop_body. simpl.
  destruct (strip _) as [|c r] eqn:Heq; [done|].
  apply Forall_app. split; [done|]. constructor; [|constructor].
  split; [done|]. rewrite <- Heq. apply strip_idemp.
Qed.

Lemma loop_steps_trimmed st st' :
  rtc (loop_step sentences chunk_size overlap) st st' →
  Forall trimmed (chunks st) → Forall trimmed (chunks st').
Proof.
  induction 1 as [|st1 st2 st3 [_ ->] _ IH]; [done|].
  intros H. by apply IH, loop_body_trimmed.
Qed.

(** With [overlap >= chunk_size] the start never moves forward, and the
    loop is never left once it is entered at a start below the length. *)
Lemma while_loop_stuck fuel : ∀ st,
  chunk_size ≤ overlap →
  start st < Z.of_nat (length sentences) →
  while_loop fuel sentences chunk_size overlap st = None.
Proof.
  induction fuel as [|fuel IH]; intros st Hle Hst; [done|]. simpl.
  unfold loop_cond. destruct (Z.ltb_spec (start st) (Z.of_nat (length sentences))); [|lia].
  apply IH; [done|]. simpl. lia.
Qed.
End ChunkerLoop.

Lemma returns_unique text chunk_size overlap res1 res2 :
  Chunker.returns text chunk_size overlap res1 →
  Chunker.returns text chunk_size overlap res2 →
  res1 = res2.
Proof.
  intros [f1 H1] [f2 H2]. unfold Chunker.chunk_text_fuel in *.
  apply (while_loop_mono _ _ _ f1 (f1 `max` f2)) in H1; [|lia].
  apply (while_loop_mono _ _ _ f2 (f1 `max` f2)) in H2; [|lia].
  congruence.
Qed.

(** ** Slices with bounds inside the usual range *)

Lemma py_slice_window {A} (l : list A) (from size : nat) :
  py_slice l (Z.of_nat from) (Z.of_nat from + Z.of_nat size)
  = take size (drop from l).
Proof.
  unfold py_slice, clamp_index.
  destruct (Z.ltb_spec (Z.of_nat from) 0); [lia|].
  destruct (Z.ltb_spec (Z.of_nat from + Z.of_nat size) 0); [lia|].
  destruct (decide (from ≤ length l)%nat) as [Hle|Hgt].
  - rewrite (Z.min_l (Z.of_nat from)) by lia. rewrite Nat2Z.id.
    destruct (decide (from + size ≤ length l)%nat).
    + rewrite Z.min_l by lia. f_equal. lia.
    + rewrite Z.min_r by lia.
      rewrite !take_ge; [done | rewrite length_drop; lia..].
  - rewrite !Z.min_r by lia. rewrite Z.sub_diag. simpl.
    rewrite Nat2Z.id. rewrite !drop_ge by lia. by rewrite !take_nil.
Qed.

Lemma window_count_lt n step k :
  (0 < step)%nat → (k < window_count n step)%nat ↔ (k * step < n)%nat.
Proof.
  intros Hstep. unfold window_count. split.
  - intros Hk. destruct (decide (k * step < n)%nat) as [|Hge]; [done|].
    exfalso. assert ((n + step - 1) / step < S k)%nat; [|lia].
    apply Nat.Div0.div_lt_upper_bound. nia.
  - intros Hk. assert (S k ≤ (n + step - 1) / step)%nat; [|lia].
    apply Nat.div_le_lower_bound; [lia | nia].
Qed.

Section SlidingWindow.
Import Chunker.

Variable sentences : list str.
Variables chunk_size overlap : Z.
Variables size step : nat.
Hypothesis Hsize : chunk_size = Z.of_nat size.
Hypothesis Hstep : chunk_size - overlap = Z.of_nat step.
Hypothesis Hpos : (0 < step)%nat.

(** From the [k]-th window on, the loop appends the chunks of the
    remaining windows and returns. *)
Lemma while_loop_windows j : ∀ k acc fuel,
  (k + j = window_count (length sentences) step)%nat → (j < fuel)%nat →
  while_loop fuel sentences chunk_size overlap
    {| start := Z.of_nat (k * step); chunks := acc |}
  = Some (acc ++ filter (λ c, c ≠ [])
                   (chunk_of sentences size
                      <$> ((λ i, i * step)%nat <$> seq k j))).
Proof using Hsize Hstep Hpos.
  induction j as [|j IH]; intros k acc fuel Hk Hfuel;
    (destruct fuel as [|fuel]; [lia|]); simpl.
  - unfold loop_cond. simpl.
    destruct (Z.ltb_spec (Z.of_nat (k * step))
                (Z.of_nat (length sentences))) as [Hlt|_].
    + assert (k < window_count (length sentences) step)%nat; [|lia].
      apply window_count_lt; [done | lia].
    + by rewrite filter_nil, app_nil_r.
  - unfold loop_cond. simpl.
    destruct (Z.ltb_spec (Z.of_nat (k * step))
                (Z.of_nat (length sentences))) as [_|Hge].
    + unfold loop_body. simpl.
      assert (py_slice sentences (Z.of_nat (k * step))
                (Z.of_nat (k * step) + chunk_size)
              = window sentences size (k * step)) as ->.
      { unfold window. rewrite <- py_slice_window. by rewrite Hsize. }
      fold (chunk_of sentences size (k * step)).
      replace (Z.of_nat (k * step) + (chunk_size - overlap))
        with (Z.of_nat (S k * step)) by (rewrite Hstep; nia).
      rewrite IH by lia.
      rewrite filter_cons.
      destruct (chunk_of sentences size (k * step)) as [|c r] eqn:Hc.
      * by rewrite decide_False by (by intros []).
      * rewrite decide_True by done. by rewrite <- app_assoc.
    + assert (k < window_count (length sentences) step)%nat as Hlt by lia.
      apply window_count_lt in Hlt; [lia | done].
Qed.

Lemma while_loop_sliding fuel :
  (window_count (length sentences) step < fuel)%nat →
  while_loop fuel sentences chunk_size overlap init
  = Some (filter (λ c, c ≠ [])
            (chunk_of sentences size
               <$> window_starts (length sentences) step)).
Proof using Hsize Hstep Hpos.
  intros Hfuel. unfold init. change 0 with (Z.of_nat (0 * step)).
  by rewrite (while_loop_windows
                (window_count (length sentences) step) 0%nat [] fuel).
Qed.

(** Every sentence lies in one of the windows. *)
Lemma sentence_in_window i s :
  (step ≤ size)%nat → sentences !! i = Some s →
  ∃ k, (k < window_count (length sentences) step)%nat
       ∧ s ∈ window sentences size (k * step).
Proof using Hpos.
  clear Hsize Hstep. intros Hle Hi. exists (i / step)%nat.
  pose proof (lookup_lt_Some _ _ _ Hi) as Hlt.
  pose proof (Nat.div_mod_eq i step) as Hdiv.
  pose proof (Nat.mod_upper_bound i step ltac:(lia)) as Hmod.
  split.
  - apply window_count_lt; [done | nia].
  - unfold window. apply elem_of_take. exists (i mod step)%nat. split; [|lia].
    rewrite lookup_drop. rewrite <- Hi. f_equal. lia.
Qed.

(** A window with a sentence that does not trim to nothing gives a chunk
    that is emitted and that holds the trimmed sentence. *)
Lemma window_chunk_emitted k s :
  (k < window_count (length sentences) step)%nat →
  s ∈ window sentences size (k * step) → strip s ≠ [] →
  chunk_of sentences size (k * step)
    ∈ filter (λ c, c ≠ [])
        (chunk_of sentences size <$> window_starts (length sentences) step)
  ∧ occurs_in (strip s) (chunk_of sentences size (k * step)).
Proof using Hpos.
  intros Hk Hin Hne.
  destruct (join_elem space _ _ Hin) as (pre & post & Heq).
  assert (Hchunk : chunk_of sentences size (k * step)
                   = strip (pre ++ s ++ post)).
  { unfold chunk_of. by rewrite Heq. }
  split; [|rewrite Hchunk; by apply strip_occurs].
  apply list_elem_of_filter.
  split; [rewrite Hchunk; by apply strip_occurs_ne|].
  apply list_elem_of_fmap. exists (k * step)%nat. split; [done|].
  unfold window_starts. apply list_elem_of_fmap. exists k. split; [done|].
  apply elem_of_seq. lia.
Qed.
End SlidingWindow.


(** ** The chunker: the properties of the specification *)



(** C3, as the code has it. For the text "A. B. C. D. E." with
    chunk_size=2 and overlap=1 the chunker returns the five chunks
    "A. B.", "B. C.", "C. D.", "D. E." and "E.": the window that starts at
    the last sentence is emitted too. *)
Theorem chunk_text_example_five :
  Chunker.returns (py "A. B. C. D. E.") 2 1
    [py "A. B."; py "B. C."; py "C. D."; py "D. E."; py "E."].
Proof. exists 6%nat. vm_compute. reflexivity. Qed.

(** C3, as stated, fails: the chunker does not return the four chunks
    "A. B.", "B. C.", "C. D.", "D. E.". *)
Lemma chunk_text_example_not_four :
  ¬ Chunker.returns (py "A. B. C. D. E.") 2 1
      [py "A. B."; py "B. C."; py "C. D."; py "D. E."].
Proof.
  intros H.
  assert (Chunker.returns (py "A. B. C. D. E.") 2 1
            [py "A. B."; py "B. C."; py "C. D."; py "D. E."; py "E."]) as H5.
  { exists 6%nat. vm_compute. reflexivity. }
  pose proof (returns_unique _ _ _ _ _ H H5) as Heq.
  apply (f_equal (@length _)) in Heq. discriminate Heq.
Qed.

(** C4, on the code. For every text and every overlap >= chunk_size the
    loop of the chunker is never left: no number of iterations gives a
    result, and no error is raised either. *)
Theorem chunk_text_overlap_ge_size_diverges text chunk_size overlap :
  chunk_size ≤ overlap → Chunker.diverges text chunk_size overlap.
Proof.
  intros Hle fuel. unfold Chunker.chunk_text_fuel.
  apply while_loop_stuck; [done|]. simpl.
  pose proof (re_split_length text). lia.
Qed.

Lemma chunk_text_overlap_ge_size_diverges_witness :
  1 ≤ 1 ∧ Chunker.diverges (py "") 1 1.
Proof.
  split; [lia | apply (chunk_text_overlap_ge_size_diverges (py "") 1 1); lia].
Defined.

(** C10. For every text and all parameters, every chunk the chunker has
    emitted, in any state its loop passes through and in any list it
    returns, is non-empty and equal to its own trim. *)
Theorem chunk_text_chunks_trimmed text chunk_size overlap :
  (∀ st, Chunker.reachable text chunk_size overlap st →
         Forall trimmed (Chunker.chunks st))
  ∧ (∀ res, Chunker.returns text chunk_size overlap res →
            Forall trimmed res).
Proof.
  split.
  - intros st Hst. eapply loop_steps_trimmed; [exact Hst|]. constructor.
  - intros res [fuel H].
    apply while_loop_reaches in H as (st & Hrtc & _ & ->).
    eapply loop_steps_trimmed; [exact Hrtc|]. constructor.
Qed.

Lemma chunk_text_chunks_trimmed_witness :
  Chunker.returns (py " A.  B? ") 1 0 [py "A."; py "B?"]
  ∧ Forall trimmed [py "A."; py "B?"].
Proof.
  assert (Chunker.returns (py " A.  B? ") 1 0 [py "A."; py "B?"]) as H.
  { exists 4%nat. vm_compute. reflexivity. }
  split; [exact H|].
  exact (proj2 (chunk_text_chunks_trimmed (py " A.  B? ") 1 0) _ H).
Defined.

(** C9, as the code has it. For every text with a character that is not
    whitespace and every chunk_size > overlap >= 0, the chunker returns a
    sequence of chunks that is not empty and has no blank chunk, and every
    sentence of the text, trimmed as the chunks are, occurs in one of the
    emitted chunks. *)
Theorem chunk_text_covers_sentences text chunk_size overlap :
  ¬ blank text → 0 ≤ overlap < chunk_size →
  ∃ res, Chunker.returns text chunk_size overlap res
         ∧ res ≠ []
         ∧ Forall (λ c, ¬ blank c) res
         ∧ ∀ s, s ∈ re_split text → ∃ c, c ∈ res ∧ occurs_in (strip s) c.
Proof.
  intros Htext Hparams.
  set (sentences := re_split text).
  set (size := Z.to_nat chunk_size).
  set (step := (Z.to_nat chunk_size - Z.to_nat overlap)%nat).
  assert (Hsize : chunk_size = Z.of_nat size) by (unfold size; lia).
  assert (Hstep : chunk_size - overlap = Z.of_nat step) by (unfold step; lia).
  assert (Hpos : (0 < step)%nat) by (unfold step; lia).
  assert (Hle : (step ≤ size)%nat) by (unfold step, size; lia).
  set (res := filter (λ c : str, c ≠ [])
                (chunk_of sentences size
                   <$> window_starts (length sentences) step)).
  (* the first sentence has a character that is not whitespace *)
  destruct (re_split_cons text) as (s0 & l & Hsplit).
  assert (Hs0 : strip s0 ≠ []).
  { intros Hnil. apply strip_nil_blank in Hnil.
    by apply (re_split_first_not_blank text s0 l). }
  assert (H0 : sentences !! 0%nat = Some s0).
  { unfold sentences. by rewrite Hsplit. }
  (* every sentence that does not trim to nothing is in an emitted chunk *)
  assert (Hcover : ∀ s, s ∈ sentences → strip s ≠ [] →
                        ∃ c, c ∈ res ∧ occurs_in (strip s) c).
  { intros s [i Hi]%list_elem_of_lookup Hne.
    destruct (sentence_in_window sentences size step Hpos i s Hle Hi)
      as (k & Hk & Hin).
    destruct (window_chunk_emitted sentences size step Hpos k s Hk Hin Hne)
      as [Hres Hocc].
    by exists (chunk_of sentences size (k * step)). }
  destruct (Hcover s0) as (c0 & Hc0 & _);
    [by apply (list_elem_of_lookup_2 _ 0%nat) | done |].
  exists res. split; [|split; [|split]].
  - exists (S (window_count (length sentences) step)).
    unfold Chunker.chunk_text_fuel.
    apply (while_loop_sliding sentences chunk_size overlap size step);
      (done || lia).
  - intros Hnil. rewrite Hnil in Hc0. by apply elem_of_nil in Hc0.
  - apply Forall_forall. intros c Hc Hblank.
    apply list_elem_of_filter in Hc as [Hne Hc].
    apply list_elem_of_fmap in Hc as (from & -> & _).
    apply Hne. unfold chunk_of in *.
    rewrite <- strip_idemp. by apply strip_blank.
  - intros s Hs. destruct (decide (strip s = [])) as [Hnil|Hne].
    + exists c0. split; [done|]. rewrite Hnil. by exists [], c0.
    + by apply Hcover.
Qed.

Lemma chunk_text_covers_sentences_witness :
  ¬ blank (py "A. B.") ∧ 0 ≤ 0 < 1
  ∧ ∃ res, Chunker.returns (py "A. B.") 1 0 res
           ∧ res ≠ []
           ∧ Forall (λ c, ¬ blank c) res
           ∧ ∀ s, s ∈ re_split (py "A. B.") →
                  ∃ c, c ∈ res ∧ occurs_in (strip s) c.
Proof.
  assert (Hnb : ¬ blank (py "A. B.")).
  { intros H. apply Forall_cons in H as [H _]. vm_compute in H. discriminate H. }
  split; [exact Hnb|]. split; [lia|].
  apply (chunk_text_covers_sentences (py "A. B.") 1 0); [exact Hnb | lia].
Defined.

(** C9, as stated, fails on two counts.  The text " " is not empty, yet
    the chunker returns no chunk for it; and for the text " A." the only
    sentence, " A.", does not occur in the only chunk, "A.". *)
Lemma chunk_text_covering_fails :
  (py " " ≠ [] ∧ 0 ≤ 0 < 1 ∧ ¬ covering_chunks_as_stated (py " ") 1 0)
  ∧ (py " A." ≠ [] ∧ ¬ covering_chunks_as_stated (py " A.") 1 0).
Proof.
  split; [split; [done | split; [lia|]] | split; [done|]].
  - intros (res & Hret & Hne & _).
    assert (Chunker.returns (py " ") 1 0 []) as H0.
    { exists 2%nat. vm_compute. reflexivity. }
    by rewrite (returns_unique _ _ _ _ _ Hret H0) in Hne.
  - intros (res & Hret & _ & _ & Hcov).
    assert (Chunker.returns (py " A.") 1 0 [py "A."]) as H1.
    { exists 2%nat. vm_compute. reflexivity. }
    rewrite (returns_unique _ _ _ _ _ Hret H1) in Hcov.
    destruct (Hcov (py " A.")) as (c & Hc & pre & post & Heq).
    { vm_compute. apply list_elem_of_here. }
    apply list_elem_of_singleton in Hc. subst c.
    apply (f_equal (@length _)) in Heq.
    rewrite !length_app in Heq.
    change (length (py "A.")) with 2%nat in Heq.
    change (length (py " A.")) with 3%nat in Heq. lia.
Qed.

(** ** The retriever: facts about the list comprehension *)

Section RetrievalFacts.
Context {vec : Type}.
Variable encode : list str → list vec.
Variable normalize : vec → vec.
Variable search : list vec → list vec → Z → list (list Z).
Variable score : Type.
Variable inner : vec → vec → score.
Variable score_lt : score → score → Prop.
Variable ctx : context vec.

Lemma resolve_absent idx rest :
  id_mapping ctx !! pretty idx = None →
  resolve ctx (idx :: rest) = resolve ctx rest.
Proof.
  intros Hnone. simpl. rewrite decide_False; [done|].
  rewrite Hnone. by intros [? ?].
Qed.

Lemma resolve_skip pre idx post :
  id_mapping ctx !! pretty idx = None →
  resolve ctx (pre ++ idx :: post) = resolve ctx (pre ++ post).
Proof.
  intros Hnone. induction pre as [|x pre IH]; simpl.
  - by apply resolve_absent.
  - by rewrite IH.
Qed.

Lemma resolve_filter row :
  resolve ctx row = resolve ctx (filter (present ctx) row).
Proof.
  induction row as [|idx row IH]; [done|].
  rewrite filter_cons. unfold present at 1. simpl.
  destruct (decide (is_Some (id_mapping ctx !! pretty idx))) as [Hin|Hout].
  - simpl. rewrite decide_True by done. by rewrite IH.
  - done.
Qed.

Lemma resolve_no_type_error row : resolve ctx row ≠ Raise TypeError.
Proof.
  induction row as [|idx row IH]; [done|]. simpl.
  destruct (decide (is_Some (id_mapping ctx !! pretty idx))) as [[i Hi]|]; [|done].
  unfold lookup_text. rewrite Hi.
  destruct (df ctx !! i); simpl; [|done].
  destruct (resolve ctx row) as [texts|e]; simpl; [done|].
  intros [= ->]. done.
Qed.

Lemma resolve_ok row :
  (∀ idx i, idx ∈ row → id_mapping ctx !! pretty idx = Some i →
            is_Some (df ctx !! i)) →
  ∃ texts, resolve ctx row = Ok texts
           ∧ Forall2 (text_at ctx) (filter (present ctx) row) texts.
Proof.
  induction row as [|idx row IH]; intros Hrow.
  - exists []. split; [done | constructor].
  - destruct IH as (texts & Hres & Hall).
    { intros idx' i Hin. apply Hrow. by apply list_elem_of_further. }
    rewrite filter_cons. unfold present at 1. simpl.
    destruct (decide (is_Some (id_mapping ctx !! pretty idx))) as [[i Hi]|Hout].
    + destruct (Hrow idx i (list_elem_of_here _ _) Hi) as [text Htext].
      exists (text :: texts). unfold lookup_text. rewrite Hi, Htext. simpl.
      rewrite Hres. simpl. split; [done|].
      constructor; [by exists i | done].
    + by exists texts.
Qed.




End RetrievalFacts.

(** ** The brute-force search meets the contract of the index *)

Section ReferenceSearch.
Import Example.
Variable idx : list vec.
Variable q : vec.

Lemma insert_ranked_spec p l :
  StronglySorted (outranks idx q) l → Forall (λ x, x < p) l →
  StronglySorted (outranks idx q) (insert_ranked (score_of idx q) p l)
  ∧ (∀ y, y ∈ insert_ranked (score_of idx q) p l ↔ y = p ∨ y ∈ l)
  ∧ length (insert_ranked (score_of idx q) p l) = S (length l).
Proof.
  induction 1 as [|x l Hl IH Hx]; intros Hlt.
  - simpl. split; [|split; [|done]].
    + repeat constructor.
    + intros y. rewrite list_elem_of_singleton, elem_of_nil. tauto.
  - apply Forall_cons in Hlt as [Hxp Hlt].
    destruct (IH Hlt) as (IHs & IHm & IHl). simpl.
    destruct (Z.ltb_spec (score_of idx q x) (score_of idx q p)) as [Hs|Hs].
    + split; [|split; [|done]].
      * constructor; [by constructor|].
        constructor; [left; lia|].
        apply Forall_forall. intros y Hy.
        destruct (proj1 (Forall_forall _ _) Hx y Hy) as [?|[? ?]];
          left; lia.
      * intros y. rewrite !elem_of_cons. tauto.
    + split; [|split].
      * constructor; [done|]. apply Forall_forall. intros y Hy.
        apply IHm in Hy as [->|Hy].
        -- unfold outranks. lia.
        -- by apply (proj1 (Forall_forall _ _) Hx).
      * intros y. rewrite !elem_of_cons, IHm. tauto.
      * simpl. by rewrite IHl.
Qed.

Lemma ranking_upto n :
  let r := foldl (λ acc p, insert_ranked (score_of idx q) p acc)
             [] (seqZ 0 (Z.of_nat n)) in
  StronglySorted (outranks idx q) r
  ∧ (∀ y, y ∈ r ↔ 0 ≤ y < Z.of_nat n)
  ∧ length r = n.
Proof.
  induction n as [|n (IHs & IHm & IHl)]; cbv zeta.
  - simpl. split; [constructor|]. split; [|done].
    intros y. rewrite elem_of_nil. lia.
  - rewrite seqZ_S, foldl_app. cbn [foldl]. rewrite Z.add_0_l.
    destruct (insert_ranked_spec (Z.of_nat n)
                (foldl (λ acc p, insert_ranked (score_of idx q) p acc)
                   [] (seqZ 0 (Z.of_nat n))))
      as (Hs & Hm & Hl); [done | |].
    { apply Forall_forall. intros y Hy. apply IHm in Hy. lia. }
    split; [done|]. split.
    + intros y. rewrite Hm, IHm. lia.
    + by rewrite Hl, IHl.
Qed.

Lemma outranks_not_ranked_after p1 p2 :
  0 ≤ p1 < Z.of_nat (length idx) → 0 ≤ p2 < Z.of_nat (length idx) →
  outranks idx q p1 p2 → not_ranked_after Z dot Z.lt idx q p1 p2.
Proof.
  intros H1 H2 Hout.
  exists (idx !!! Z.to_nat p1), (idx !!! Z.to_nat p2).
  split; [apply list_lookup_lookup_total_lt; lia|].
  split; [apply list_lookup_lookup_total_lt; lia|].
  unfold outranks, score_of in Hout. lia.
Qed.

Lemma outranks_NoDup l : StronglySorted (outranks idx q) l → NoDup l.
Proof.
  induction 1 as [|x l Hl IH Hx]; constructor; [|done].
  intros Hin. apply (proj1 (Forall_forall _ _) Hx) in Hin.
  unfold outranks in Hin. lia.
Qed.

(** The row of the brute-force search is a row as the index owes it. *)
Lemma search_row_flat_ip k :
  flat_ip_row Z dot Z.lt idx q k (search_row idx k q).
Proof.
  destruct (ranking_upto (length idx)) as (Hs & Hm & Hl).
  fold (ranking idx q) in Hs, Hm, Hl.
  exists (take (Z.to_nat k) (ranking idx q)).
  split; [done|]. split; [by rewrite length_take, Hl|].
  assert (Hrange : Forall (λ p, 0 ≤ p < Z.of_nat (length idx))
                     (take (Z.to_nat k) (ranking idx q))).
  { apply Forall_take, Forall_forall. intros y Hy. by apply Hm. }
  split; [done|].
  assert (Hsorted : StronglySorted (outranks idx q)
                      (take (Z.to_nat k) (ranking idx q))).
  { apply (StronglySorted_app_1_l _ _ (drop (Z.to_nat k) (ranking idx q))).
    by rewrite take_drop. }
  split; [by apply outranks_NoDup|].
  induction Hsorted as [|x l Hl' IH Hx]; [constructor|].
  apply Forall_cons in Hrange as [Hxr Hlr].
  constructor; [by apply IH|].
  apply Forall_forall. intros y Hy.
  apply outranks_not_ranked_after; [done | |].
  - by apply (proj1 (Forall_forall _ _) Hlr).
  - by apply (proj1 (Forall_forall _ _) Hx).
Qed.
End ReferenceSearch.

(** ** The index builder: what [create_dataframe] writes *)

Lemma create_dataframe_mapping chunks key i :
  (create_dataframe chunks).2 !! key = Some i
  ↔ key = pretty i ∧ 0 ≤ i < Z.of_nat (length chunks).
Proof.
  unfold create_dataframe, json_dump. simpl.
  rewrite lookup_kmap_Some by apply _. split.
  - intros (p & -> & Hp). apply elem_of_list_to_map_2 in Hp.
    apply list_elem_of_fmap in Hp as (j & [= -> ->] & Hj).
    apply elem_of_seqZ in Hj. split; [done | lia].
  - intros [-> Hi]. exists i. split; [done|].
    apply elem_of_list_to_map_1.
    + rewrite <- list_fmap_compose. simpl.
      rewrite list_fmap_id. apply NoDup_seqZ.
    + apply list_elem_of_fmap. exists i. split; [done|].
      apply elem_of_seqZ. lia.
Qed.

Lemma create_dataframe_table chunks i :
  0 ≤ i → (create_dataframe chunks).1 !! i = chunks !! Z.to_nat i.
Proof. intros Hi. unfold create_dataframe. simpl. by apply lookup_map_seqZ_0. Qed.


(** ** The index builder and the retriever: the properties of the
    specification *)





(** C5, as the code has it. The load reads the three artifacts one after
    the other and checks nothing across them: it succeeds exactly when all
    three can be read, and the process then serves with the artifacts as
    read, whatever their counts and id ranges. *)
Theorem load_without_integrity_check {vec : Type}
    (files : artifacts vec) (ctx : context vec) :
  load files = Ok ctx
  ↔ files = Artifacts (Some (index ctx)) (Some (df ctx))
                      (Some (id_mapping ctx)).
Proof.
  destruct files as [[idx|] [table|] [mapping|]], ctx as [idx' table' mapping'];
    simpl; split; intros H; try discriminate H; inversion H; done.
Qed.

(** C5, as stated, fails: artifacts whose mapping has one entry for an
    index of two vectors, the entry's value outside the chunk table, are
    loaded without error, and the mismatch only shows when a request
    reaches the entry. *)
Lemma load_accepts_mismatch :
  load Example.broken_files = Ok Example.broken
  ∧ ¬ consistent Example.broken
  ∧ retrieve_docs Example.encode Example.normalize Example.search
      Example.broken (py "B. C.") 1 = Raise (KeyError 7).
Proof.
  split; [reflexivity|]. split; [|vm_compute; reflexivity].
  intros [Hsize _]. vm_compute in Hsize. discriminate Hsize.
Qed.

(** ** The normalization: a row whose norm is zero *)

Lemma float32_mul_self_zero x :
  Float32.mul x x = Float32.zero →
  (∃ s, x = S754_zero s) ∨ (∃ s m e, x = S754_finite s m e).
Proof.
  destruct x as [s| s| |s m e]; intros H; try discriminate H.
  - left. by exists s.
  - right. by exists s, m, e.
Qed.

Lemma float32_div_zero x :
  Float32.mul x x = Float32.zero →
  Float32.not_a_number_or_infinite (Float32.div x Float32.zero).
Proof.
  intros [[s ->] | (s & m & e & ->)]%float32_mul_self_zero.
  - by left.
  - right. by eexists.
Qed.

Lemma float32_sum_zero (l : list Float32.float32) :
  Forall (λ y, y = Float32.zero) l →
  foldl Float32.add Float32.zero l = Float32.zero.
Proof. induction 1 as [|y l -> _ IH]; [done|]. exact IH. Qed.

Lemma float32_norm_zero (v : list Float32.float32) :
  Forall (λ x, Float32.mul x x = Float32.zero) v →
  Float32.norm v = Float32.zero.
Proof.
  intros Hv. unfold Float32.norm. rewrite float32_sum_zero; [done|].
  by apply Forall_fmap.
Qed.

(** C6, on the code. The embedder divides every row by its norm with no
    check.  For every batch, a row the model gives whose squares all come
    out zero in float32 (the zero vector, or components too small for
    their squares) is neither skipped nor replaced nor reported: the index
    gets as many rows as the model gave, and at the place of that row a
    row of the same length in which every component is NaN or an
    infinity. *)
Theorem normalize_zero_norm_undetected
    (encode : list str → list (list Float32.float32))
    (chunks : list str) (i : nat) (v : list Float32.float32) :
  encode chunks !! i = Some v →
  Forall (λ x, Float32.mul x x = Float32.zero) v →
  length (build_faiss_index encode Float32.normalize chunks).1
  = length (encode chunks)
  ∧ ∃ row,
      (build_faiss_index encode Float32.normalize chunks).1 !! i = Some row
      ∧ length row = length v
      ∧ Forall Float32.not_a_number_or_infinite row.
Proof.
  intros Hi Hv. unfold build_faiss_index. cbn [fst]. simpl app.
  split; [by rewrite length_fmap|].
  exists (Float32.normalize v). split; [by rewrite list_lookup_fmap, Hi|].
  unfold Float32.normalize. split; [by rewrite length_fmap|].
  rewrite float32_norm_zero by done.
  apply Forall_fmap. eapply Forall_impl; [exact Hv|].
  intros x Hx. by apply float32_div_zero.
Qed.

Lemma normalize_zero_norm_undetected_witness :
  Float32.zero_encoder [py "A."] !! 0%nat
  = Some [Float32.zero; Float32.zero]
  ∧ Forall (λ x, Float32.mul x x = Float32.zero)
      [Float32.zero; Float32.zero]
  ∧ (build_faiss_index Float32.zero_encoder Float32.normalize [py "A."]).1
    = [[S754_nan; S754_nan]]
  ∧ length (build_faiss_index Float32.zero_encoder Float32.normalize
              [py "A."]).1
    = length (Float32.zero_encoder [py "A."])
  ∧ ∃ row,
      (build_faiss_index Float32.zero_encoder Float32.normalize [py "A."]).1
        !! 0%nat = Some row
      ∧ length row = length [Float32.zero; Float32.zero]
      ∧ Forall Float32.not_a_number_or_infinite row.
Proof.
  assert (Hv : Forall (λ x, Float32.mul x x = Float32.zero)
                 [Float32.zero; Float32.zero]) by (by repeat constructor).
  split; [reflexivity|]. split; [exact Hv|]. split; [reflexivity|].
  apply (normalize_zero_norm_undetected Float32.zero_encoder [py "A."] 0
           [Float32.zero; Float32.zero]); [reflexivity | exact Hv].
Defined.

(** C7. A position of the search row that has no entry in the id mapping
    is skipped: the result is that of the row without it, the comprehension
    never raises the error of a missing entry, it raises nothing at all
    when the entries present point into the chunk table, and
    [retrieve_docs] returns the join of what the remaining positions
    resolve to. *)
Theorem retrieve_skips_absent {vec : Type}
    (encode : list str → list vec) (normalize : vec → vec)
    (search : list vec → list vec → Z → list (list Z))
    (ctx : context vec) :
  (∀ pre idx post,
     id_mapping ctx !! pretty idx = None →
     resolve ctx (pre ++ idx :: post) = resolve ctx (pre ++ post))
  ∧ (∀ row, resolve ctx row ≠ Raise TypeError)
  ∧ (∀ row,
       (∀ idx i, idx ∈ row → id_mapping ctx !! pretty idx = Some i →
                 is_Some (df ctx !! i)) →
       ∃ texts, resolve ctx row = Ok texts
                ∧ Forall2 (text_at ctx) (filter (present ctx) row) texts)
  ∧ (∀ query top_k pre idx post,
       search (index ctx) (normalize <$> encode [query]) top_k !! 0%nat
       = Some (pre ++ idx :: post) →
       id_mapping ctx !! pretty idx = None →
       retrieve_docs encode normalize search ctx query top_k
       = (texts ← resolve ctx (pre ++ post); mret (join blank_line texts))).
Proof.
  split; [apply resolve_skip|]. split; [apply resolve_no_type_error|].
  split; [apply resolve_ok|].
  intros query top_k pre idx post Hrow Hnone.
  unfold retrieve_docs. rewrite Hrow. simpl. by rewrite resolve_skip.
Qed.

Lemma retrieve_skips_absent_witness :
  Example.search (index Example.built)
    (Example.normalize <$> Example.encode [py "B. C."]) 5 !! 0%nat
  = Some ([1; 0; 2] ++ -1 :: [-1])
  ∧ id_mapping Example.built !! pretty (-1) = None
  ∧ retrieve_docs Example.encode Example.normalize Example.search
      Example.built (py "B. C.") 5
    = (texts ← resolve Example.built ([1; 0; 2] ++ [-1]);
       mret (join blank_line texts)).
Proof.
  assert (Hnone : id_mapping Example.built !! pretty (-1) = None).
  { vm_compute. reflexivity. }
  split; [reflexivity|]. split; [exact Hnone|].
  apply (proj2 (proj2 (proj2
           (retrieve_skips_absent Example.encode Example.normalize
              Example.search Example.built)))
           (py "B. C.") 5 [1; 0; 2] (-1) [-1]);
    [reflexivity | exact Hnone].
Defined.

(** C8. For every chunk sequence, when the embedder gives one vector per
    chunk, the build step writes as id mapping the identity over the
    positions [0, count), under stringified keys and with nothing else in
    it, and puts the normalized vectors of the chunks into a fresh index in
    input order; so every key of the mapping is a position below
    index.count and every mapped value is the id of a row of the chunk
    table, the row of that chunk. *)
Theorem build_identity_mapping {vec : Type}
    (encode : list str → list vec) (normalize : vec → vec)
    (chunks : list str) :
  length (encode chunks) = length chunks →
  (∀ p, 0 ≤ p < Z.of_nat (length chunks) →
        (create_dataframe chunks).2 !! pretty p = Some p)
  ∧ (build_faiss_index encode normalize chunks).1
    = normalize <$> encode chunks
  ∧ length (build_faiss_index encode normalize chunks).1 = length chunks
  ∧ (∀ key i,
       (create_dataframe chunks).2 !! key = Some i →
       key = pretty i
       ∧ 0 ≤ i < Z.of_nat (length (build_faiss_index encode normalize chunks).1)
       ∧ ∃ text, (create_dataframe chunks).1 !! i = Some text
                 ∧ chunks !! Z.to_nat i = Some text).
Proof.
  intros Hlen.
  assert (Hcount : length (build_faiss_index encode normalize chunks).1
                   = length chunks).
  { unfold build_faiss_index. simpl. by rewrite length_fmap. }
  split; [|split; [done|split; [done|]]].
  - intros p Hp. by apply create_dataframe_mapping.
  - intros key i Hi. apply create_dataframe_mapping in Hi as [-> Hi].
    split; [done|]. rewrite Hcount. split; [done|].
    destruct (lookup_lt_is_Some_2 chunks (Z.to_nat i)) as [text Htext]; [lia|].
    exists text. by rewrite create_dataframe_table by lia.
Qed.

Lemma build_identity_mapping_witness :
  length (Example.encode Example.chunks) = length Example.chunks
  ∧ (∀ p, 0 ≤ p < Z.of_nat (length Example.chunks) →
          (create_dataframe Example.chunks).2 !! pretty p = Some p)
  ∧ (build_faiss_index Example.encode Example.normalize Example.chunks).1
    = Example.normalize <$> Example.encode Example.chunks
  ∧ length (build_faiss_index Example.encode Example.normalize
              Example.chunks).1
    = length Example.chunks
  ∧ (∀ key i,
       (create_dataframe Example.chunks).2 !! key = Some i →
       key = pretty i
       ∧ 0 ≤ i < Z.of_nat (length (build_faiss_index Example.encode
                                     Example.normalize Example.chunks).1)
       ∧ ∃ text, (create_dataframe Example.chunks).1 !! i = Some text
                 ∧ Example.chunks !! Z.to_nat i = Some text).
Proof.
  split; [reflexivity|].
  apply (build_identity_mapping Example.encode Example.normalize
           Example.chunks).
  reflexivity.
Defined.

(** * Further properties of the code *)

(** ** [chunk_text]: termination, bounds, edge cases *)

Lemma while_loop_terminates sentences chunk_size overlap fuel : ∀ st,
  overlap < chunk_size →
  (Z.to_nat (Z.of_nat (length sentences) - Chunker.start st) < fuel)%nat →
  ∃ res, Chunker.while_loop fuel sentences chunk_size overlap st = Some res.
Proof.
  induction fuel as [|fuel IH]; intros st Hlt Hfuel; [lia|]. simpl.
  unfold Chunker.loop_cond.
  destruct (Z.ltb_spec (Chunker.start st) (Z.of_nat (length sentences)));
    [|by eexists].
  apply IH; [done|]. simpl. lia.
Qed.

Lemma returns_overlap_lt text chunk_size overlap res :
  Chunker.returns text chunk_size overlap res → overlap < chunk_size.
Proof.
  intros [fuel H]. destruct (decide (overlap < chunk_size)) as [|Hge]; [done|].
  unfold Chunker.chunk_text_fuel in H.
  rewrite while_loop_stuck in H; [done | lia |]. simpl.
  pose proof (re_split_length text). lia.
Qed.

(** X1. [chunk_text] returns exactly when chunk_size > overlap, whatever
    the signs of the two parameters. *)
Theorem chunk_text_returns_iff text chunk_size overlap :
  (∃ res, Chunker.returns text chunk_size overlap res)
  ↔ overlap < chunk_size.
Proof.
  split.
  - intros [res H]. by eapply returns_overlap_lt.
  - intros Hlt.
    destruct (while_loop_terminates (re_split text) chunk_size overlap
                (S (length (re_split text))) Chunker.init Hlt) as [res H].
    { simpl. lia. }
    exists res. by eexists.
Qed.

Lemma loop_body_length sentences chunk_size overlap st :
  (length (Chunker.chunks
             (Chunker.loop_body sentences chunk_size overlap st))
   ≤ S (length (Chunker.chunks st)))%nat.
Proof.
  unfold Chunker.loop_body. simpl. destruct (strip _); [lia|].
  rewrite length_app. simpl. lia.
Qed.

Lemma loop_steps_count sentences chunk_size overlap st st' :
  overlap < chunk_size →
  rtc (Chunker.loop_step sentences chunk_size overlap) st st' →
  Z.of_nat (length (Chunker.chunks st)) ≤ Chunker.start st →
  (length (Chunker.chunks st) ≤ length sentences)%nat →
  Z.of_nat (length (Chunker.chunks st')) ≤ Chunker.start st'
  ∧ (length (Chunker.chunks st') ≤ length sentences)%nat.
Proof.
  intros Hlt. induction 1 as [|st1 st2 st3 [Hcond ->] _ IH]; [done|].
  intros H1 H2. unfold Chunker.loop_cond in Hcond.
  apply Z.ltb_lt in Hcond.
  pose proof (loop_body_length sentences chunk_size overlap st1) as Hlen.
  apply IH; [simpl Chunker.start|]; lia.
Qed.

(** X3. [chunk_text] never returns more chunks than the text has
    sentences. *)
Theorem chunk_text_count_le_sentences text chunk_size overlap res :
  Chunker.returns text chunk_size overlap res →
  (length res ≤ length (re_split text))%nat.
Proof.
  intros Hret. pose proof (returns_overlap_lt _ _ _ _ Hret) as Hlt.
  destruct Hret as [fuel H].
  apply while_loop_reaches in H as (st & Hrtc & _ & ->).
  apply (loop_steps_count _ _ _ _ _ Hlt Hrtc); simpl; lia.
Qed.

Lemma chunk_text_count_le_sentences_witness :
  Chunker.returns (py "A. B. C.") 2 1 [py "A. B."; py "B. C."; py "C."]
  ∧ (length [py "A. B."; py "B. C."; py "C."]
     ≤ length (re_split (py "A. B. C.")))%nat.
Proof.
  assert (Chunker.returns (py "A. B. C.") 2 1
            [py "A. B."; py "B. C."; py "C."]) as H.
  { exists 4%nat. vm_compute. reflexivity. }
  split; [exact H|].
  exact (chunk_text_count_le_sentences (py "A. B. C.") 2 1 _ H).
Defined.

Lemma blank_no_boundary s : blank s → no_boundary s.
Proof.
  intros Hb a c d b -> Hc.
  apply Forall_app in Hb as [_ Hb]. apply Forall_cons in Hb as [Hb _].
  apply terminal_not_space in Hc. congruence.
Qed.

Lemma re_split_blank text : blank text → re_split text = [text].
Proof.
  intros Hb. symmetry. apply sentences_of_unique.
  by apply sentences_last, blank_no_boundary.
Qed.

Lemma py_slice_singleton {A} (x : A) (start stop : Z) :
  py_slice [x] start stop = [] ∨ py_slice [x] start stop = [x].
Proof.
  unfold py_slice.
  destruct (Z.to_nat (clamp_index _ start)) as [|n]; simpl.
  - destruct (Z.to_nat _); simpl; [auto | rewrite take_nil; auto].
  - rewrite drop_nil, take_nil. auto.
Qed.

Lemma loop_steps_blank text chunk_size overlap st st' :
  blank text →
  rtc (Chunker.loop_step [text] chunk_size overlap) st st' →
  Chunker.chunks st = [] → Chunker.chunks st' = [].
Proof.
  intros Hb. induction 1 as [|st1 st2 st3 [_ ->] _ IH]; [done|].
  intros Hnil. apply IH. unfold Chunker.loop_body. simpl.
  destruct (py_slice_singleton text (Chunker.start st1)
              (Chunker.start st1 + chunk_size)) as [-> | ->]; simpl.
  - done.
  - by rewrite strip_blank.
Qed.

(** X2. For a text that is empty or only whitespace, [chunk_text] returns
    the empty list, for every chunk_size > overlap. *)
Theorem chunk_text_blank text chunk_size overlap :
  blank text → overlap < chunk_size →
  Chunker.returns text chunk_size overlap [].
Proof.
  intros Hb Hlt.
  destruct (while_loop_terminates (re_split text) chunk_size overlap
              (S (length (re_split text))) Chunker.init Hlt) as [res H].
  { simpl. lia. }
  exists (S (length (re_split text))). unfold Chunker.chunk_text_fuel.
  rewrite H. f_equal. rewrite re_split_blank in H by done.
  apply while_loop_reaches in H as (st & Hrtc & _ & ->).
  by apply (loop_steps_blank text chunk_size overlap Chunker.init st).
Qed.

Lemma chunk_text_blank_witness :
  blank (py "  ") ∧ -3 < -1 ∧ Chunker.returns (py "  ") (-1) (-3) [].
Proof.
  assert (Hb : blank (py "  ")) by (repeat constructor).
  split; [exact Hb|]. split; [lia|].
  apply (chunk_text_blank (py "  ") (-1) (-3)); [exact Hb | lia].
Defined.

(** ** The sentences of a text *)

Lemma sentences_of_first t l :
  sentences_of t l → ∃ s0 l' t', l = s0 :: l' ∧ t = s0 ++ t'
                                 ∧ (l' ≠ [] → s0 ≠ []).
Proof.
  destruct 1 as [s Hnb | piece ws rest l Hnb Hend Hne Hws Hrest Hl].
  - exists s, [], []. by rewrite app_nil_r.
  - exists piece, l, (ws ++ rest). split; [done|]. split; [done|].
    intros _ ->. done.
Qed.

Lemma starts_clean_prefix s t : s ≠ [] → starts_clean (s ++ t) → starts_clean s.
Proof. by destruct s. Qed.

Lemma sentences_of_shape t l :
  sentences_of t l →
  ∀ i s, l !! i = Some s →
    no_boundary s
    ∧ ((S i < length l)%nat → ends_terminalb s = true)
    ∧ ((0 < i)%nat → starts_clean s).
Proof.
  induction 1 as [s0 Hnb | piece ws rest l Hnb Hend Hne Hws Hrest Hl IH];
    intros i s Hi.
  - destruct i as [|i]; [|done]. injection Hi as <-.
    split; [done|]. split; [simpl; lia | lia].
  - destruct i as [|i].
    + injection Hi as <-. split; [done|]. split; [done | lia].
    + simpl in Hi. destruct (IH i s Hi) as (H1 & H2 & H3).
      split; [done|]. split; [intros ?; apply H2; simpl in *; lia|].
      intros _. destruct i as [|i]; [|apply H3; lia].
      destruct (sentences_of_first _ _ Hl) as (s0 & l' & t' & -> & -> & _).
      injection Hi as ->. destruct s as [|c s]; [done|]. exact Hrest.
Qed.

(** X4. In the sentence sequence of a text, no sentence holds a '.', '!'
    or '?' directly followed by whitespace, every sentence but the last
    ends with '.', '!' or '?', and no sentence but the first starts with
    whitespace. *)
Theorem re_split_sentence_shape text i s :
  re_split text !! i = Some s →
  no_boundary s
  ∧ ((S i < length (re_split text))%nat → ends_terminalb s = true)
  ∧ ((0 < i)%nat → starts_clean s).
Proof. apply sentences_of_shape with (t := text), re_split_sentences. Qed.

Lemma re_split_sentence_shape_witness :
  re_split (py "a b?  c. ") !! 1%nat = Some (py "c.")
  ∧ no_boundary (py "c.")
  ∧ ((2 < length (re_split (py "a b?  c. ")))%nat →
     ends_terminalb (py "c.") = true)
  ∧ ((0 < 1)%nat → starts_clean (py "c.")).
Proof.
  split; [reflexivity|].
  apply (re_split_sentence_shape (py "a b?  c. ") 1 (py "c.")). reflexivity.
Defined.

Lemma filter_nonspace_blank ws :
  blank ws → filter (λ c, isspace c = false) (ws : list char) = [].
Proof.
  induction 1 as [|c ws Hc _ IH]; [done|].
  rewrite filter_cons_False by congruence. done.
Qed.

Lemma sentences_of_nonspace t l :
  sentences_of t l →
  filter (λ c, isspace c = false) (concat l)
  = filter (λ c, isspace c = false) (t : list char).
Proof.
  induction 1 as [s Hnb | piece ws rest l Hnb Hend Hne Hws Hrest Hl IH].
  - simpl. by rewrite app_nil_r.
  - simpl. rewrite !filter_app, IH, (filter_nonspace_blank ws) by done. done.
Qed.

(** X5. The split removes whitespace only: the characters of the
    sentences that are not whitespace are, in order, those of the text. *)
Theorem re_split_keeps_nonspace text :
  filter (λ c, isspace c = false) (concat (re_split text))
  = filter (λ c, isspace c = false) (text : list char).
Proof. apply sentences_of_nonspace, re_split_sentences. Qed.

Lemma join_cons_cons sep s s' l :
  join sep (s :: s' :: l) = s ++ sep ++ join sep (s' :: l).
Proof. done. Qed.

Lemma sentences_of_join_clean t l :
  sentences_of t l → starts_clean t → starts_clean (join space l).
Proof.
  intros Hs Ht.
  destruct (sentences_of_first _ _ Hs) as (s0 & l' & t' & -> & -> & Hne).
  destruct l' as [|s1 l'].
  - simpl. destruct s0; [done|]. exact Ht.
  - rewrite join_cons_cons. destruct s0 as [|c s0]; [by destruct Hne|].
    exact Ht.
Qed.

Lemma sentences_of_join t l : sentences_of t l → sentences_of (join space l) l.
Proof.
  induction 1 as [s Hnb | piece ws rest l Hnb Hend Hne Hws Hrest Hl IH].
  - by constructor.
  - destruct (sentences_of_first _ _ Hl) as (s0 & l' & t' & -> & _ & _).
    rewrite join_cons_cons. constructor; try done.
    + repeat constructor.
    + by apply (sentences_of_join_clean rest).
Qed.

(** X6. Chunking sees a text only through its sentences: when every
    whitespace run between two sentences is replaced by one space (the
    sentences joined by single spaces), the split gives the same sentences
    and [chunk_text] the same result. *)
Theorem chunk_text_separator_insensitive text :
  re_split (join space (re_split text)) = re_split text
  ∧ ∀ fuel chunk_size overlap,
      Chunker.chunk_text_fuel fuel (join space (re_split text))
        chunk_size overlap
      = Chunker.chunk_text_fuel fuel text chunk_size overlap.
Proof.
  assert (H : re_split (join space (re_split text)) = re_split text).
  { symmetry. apply sentences_of_unique, (sentences_of_join text),
      re_split_sentences. }
  split; [done|]. intros fuel chunk_size overlap.
  unfold Chunker.chunk_text_fuel. by rewrite H.
Qed.

(** X7. A text with a character that is not whitespace and with at most
    chunk_size - overlap sentences (0 <= overlap < chunk_size) gives
    exactly one chunk: its sentences joined by single spaces, trimmed. *)
Theorem chunk_text_short_text text chunk_size overlap :
  ¬ blank text → 0 ≤ overlap < chunk_size →
  Z.of_nat (length (re_split text)) ≤ chunk_size - overlap →
  Chunker.returns text chunk_size overlap
    [strip (join space (re_split text))].
Proof.
  intros Htext Hparams Hshort.
  set (size := Z.to_nat chunk_size).
  set (step := (Z.to_nat chunk_size - Z.to_nat overlap)%nat).
  assert (Hsize : chunk_size = Z.of_nat size) by (unfold size; lia).
  assert (Hstep : chunk_size - overlap = Z.of_nat step) by (unfold step; lia).
  assert (Hpos : (0 < step)%nat) by (unfold step; lia).
  pose proof (re_split_length text) as Hlen.
  assert (Hcount : window_count (length (re_split text)) step = 1%nat).
  { pose proof (window_count_lt (length (re_split text)) step 0 Hpos) as H0.
    pose proof (window_count_lt (length (re_split text)) step 1 Hpos) as H1.
    lia. }
  exists 2%nat. unfold Chunker.chunk_text_fuel.
  rewrite (while_loop_sliding _ chunk_size overlap size step) by (done || lia).
  unfold window_starts. rewrite Hcount. simpl.
  assert (Hchunk : chunk_of (re_split text) size 0
                   = strip (join space (re_split text))).
  { unfold chunk_of, window. rewrite drop_0, take_ge by lia. done. }
  rewrite Hchunk. rewrite filter_cons_True; [done|].
  destruct (re_split_cons text) as (s0 & l & Hsplit).
  destruct (join_elem space (re_split text) s0) as (pre & post & ->).
  { rewrite Hsplit. apply list_elem_of_here. }
  apply strip_occurs_ne. intros Hnil. apply strip_nil_blank in Hnil.
  by apply (re_split_first_not_blank text s0 l).
Qed.

Lemma chunk_text_short_text_witness :
  ¬ blank (py " A. B. ") ∧ 0 ≤ 5 < 50
  ∧ Z.of_nat (length (re_split (py " A. B. "))) ≤ 50 - 5
  ∧ Chunker.returns (py " A. B. ") 50 5
      [strip (join space (re_split (py " A. B. ")))].
Proof.
  assert (Hnb : ¬ blank (py " A. B. ")).
  { intros H. apply Forall_cons in H as [_ H]. apply Forall_cons in H as [H _].
    vm_compute in H. discriminate H. }
  split; [exact Hnb|]. split; [lia|]. split; [vm_compute; discriminate|].
  apply (chunk_text_short_text (py " A. B. ") 50 5);
    [exact Hnb | lia | vm_compute; discriminate].
Defined.

(** ** Chunks without overlap: joining them gives the text back *)

Lemma join_app sep (a b : list str) :
  a ≠ [] → b ≠ [] → join sep (a ++ b) = join sep a ++ sep ++ join sep b.
Proof.
  intros Ha Hb. induction a as [|x a IH]; [done|].
  destruct a as [|y a].
  - destruct b as [|z b]; [done|]. done.
  - change ((x :: y :: a) ++ b) with (x :: (y :: a) ++ b).
    change ((y :: a) ++ b) with (y :: (a ++ b)) at 1.
    rewrite !join_cons_cons.
    change (y :: (a ++ b)) with ((y :: a) ++ b).
    rewrite IH by done. by rewrite <- !app_assoc.
Qed.

Lemma join_ne_nil sep (l : list str) :
  l ≠ [] → Forall (λ c, c ≠ []) l → join sep l ≠ [].
Proof.
  destruct l as [|x l]; [done|]. intros _ [Hx _]%Forall_cons.
  destruct l as [|y l]; [done|]. rewrite join_cons_cons.
  destruct x; [done|]. done.
Qed.

Lemma join_join sep (ws : list (list str)) :
  Forall (λ w, w ≠ []) ws →
  join sep (join sep <$> ws) = join sep (concat ws).
Proof.
  induction 1 as [|w ws Hw Hws IH]; [done|].
  destruct ws as [|w' ws].
  - simpl. by rewrite app_nil_r.
  - change (join sep <$> w :: w' :: ws)
      with (join sep w :: join sep w' :: (join sep <$> ws)).
    rewrite join_cons_cons.
    change (join sep w' :: (join sep <$> ws)) with (join sep <$> w' :: ws).
    rewrite IH. change (concat (w :: w' :: ws)) with (w ++ concat (w' :: ws)).
    rewrite join_app; [done | done |].
    apply Forall_cons in Hws as [Hw' _]. simpl. by destruct w'.
Qed.

Lemma rstrip_blank s : blank s → rstrip s = [].
Proof.
  intros Hb. unfold rstrip. rewrite lstrip_blank; [done|].
  unfold blank in *. by apply Forall_rev.
Qed.

Lemma snoc_of_ends_clean u :
  u ≠ [] → ends_clean u → ∃ q d, u = q ++ [d] ∧ isspace d = false.
Proof.
  intros Hne He. destruct u as [|x u _] using rev_ind; [done|].
  exists u, x. split; [done|]. unfold ends_clean in He.
  by rewrite rev_app_distr in He.
Qed.

Lemma rstrip_app_keep a s : rstrip s ≠ [] → rstrip (a ++ s) = a ++ rstrip s.
Proof.
  intros Hne. destruct (rstrip_split s) as (ws & Heq & Hws).
  destruct (snoc_of_ends_clean (rstrip s) Hne (rstrip_ends_clean s))
    as (q & d & Hq & Hd).
  rewrite Heq at 1. rewrite Hq. rewrite <- !app_assoc. simpl.
  rewrite (app_assoc a q (d :: ws)).
  rewrite rstrip_app_clean by done. rewrite rstrip_blank by done.
  by rewrite <- app_assoc.
Qed.

(** Pieces of which each ends without whitespace and is followed by one
    that starts without whitespace: trimming the pieces and joining them
    is trimming their join. *)
Lemma strip_join_pieces (us : list str) :
  (∀ k u u', us !! k = Some u → us !! S k = Some u' →
             u ≠ [] ∧ ends_clean u ∧ starts_clean u') →
  join space (filter (λ c, c ≠ []) (strip <$> us)) = strip (join space us).
Proof.
  induction us as [|u us IH]; intros Hglue; [done|].
  destruct us as [|u' us].
  - change (strip <$> [u]) with [strip u]. simpl join.
    destruct (decide (strip u = [])) as [Hnil|Hnn].
    + rewrite filter_cons_False by (by intros ?). by rewrite Hnil.
    + by rewrite filter_cons_True by done.
  - destruct (Hglue 0%nat u u' eq_refl eq_refl) as (Hne & Hend & Hstart).
    assert (IH' : join space (filter (λ c, c ≠ []) (strip <$> u' :: us))
                  = strip (join space (u' :: us))).
    { apply IH. intros k v v' Hv Hv'. by apply (Hglue (S k)). }
    assert (Hclean : starts_clean (join space (u' :: us))).
    { destruct us as [|u'' us]; [done|]. rewrite join_cons_cons.
      destruct (Hglue 1%nat u' u'' eq_refl eq_refl) as (Hne' & _ & _).
      by destruct u'. }
    destruct (snoc_of_ends_clean u Hne Hend) as (q & d & -> & Hd).
    assert (Hu : strip (q ++ [d]) = lstrip q ++ [d]).
    { unfold strip. rewrite lstrip_app_clean by done.
      apply rstrip_fix. unfold ends_clean. by rewrite rev_app_distr. }
    assert (Hrhs : strip (join space ((q ++ [d]) :: u' :: us))
                   = (lstrip q ++ [d])
                     ++ rstrip (space ++ join space (u' :: us))).
    { rewrite join_cons_cons. unfold strip. rewrite <- app_assoc. simpl.
      rewrite lstrip_app_clean by done.
      rewrite rstrip_app_clean by done. by rewrite <- app_assoc. }
    assert (Hstrip : strip (join space (u' :: us))
                     = rstrip (join space (u' :: us))).
    { unfold strip. by rewrite lstrip_fix. }
    unfold str in *.
    etrans; [|symmetry; exact Hrhs].
    rewrite fmap_cons, filter_cons_True by (rewrite Hu; by destruct (lstrip q)).
    rewrite Hu. revert IH'.
    match goal with
    | |- context [filter ?P ?l] =>
        pose proof (proj2 (Forall_forall P (filter P l))
                      (λ x Hx, proj1 (proj1 (list_elem_of_filter P l x) Hx)))
          as Hall;
        destruct (filter P l) as [|c l'] eqn:Hf
    end; intros IH'.
    + simpl in IH'. symmetry in IH'. apply strip_nil_blank in IH'.
      simpl join. rewrite rstrip_blank; [by rewrite app_nil_r|].
      apply Forall_app. split; [repeat constructor | done].
    + assert (Hnn : rstrip (join space (u' :: us)) ≠ []).
      { rewrite <- Hstrip, <- IH'. by apply join_ne_nil. }
      rewrite rstrip_app_keep by done. rewrite <- Hstrip, <- IH'.
      by rewrite join_cons_cons.
Qed.

Lemma windows_concat (l : list str) (size m : nat) :
  concat (window l size <$> ((λ k, k * size)%nat <$> seq 0 m))
  = take (m * size) l.
Proof.
  induction m as [|m IH]; [by rewrite take_0|].
  rewrite seq_S, !fmap_app, concat_app, IH. simpl.
  rewrite app_nil_r. unfold window. rewrite take_take_drop.
  f_equal. lia.
Qed.

Lemma ends_terminalb_join_last (w : list str) (s : str) :
  ends_terminalb s = true →
  join space (w ++ [s]) ≠ [] ∧ ends_clean (join space (w ++ [s])).
Proof.
  intros (p & c & -> & Hc)%ends_terminalb_inv.
  apply terminal_not_space in Hc.
  assert (∃ x, join space (w ++ [p ++ [c]]) = x ++ [c]) as [x Hx].
  { destruct w as [|y w].
    - by exists p.
    - rewrite join_app by done. simpl. exists (join space (y :: w) ++ space ++ p).
      by rewrite <- !app_assoc. }
  unfold str in *. rewrite Hx.
  split; [by destruct x|]. unfold ends_clean. by rewrite rev_app_distr.
Qed.

Section NoOverlap.
Variable sentences : list str.
Variable size : nat.
Hypothesis Hsize : (0 < size)%nat.
Hypothesis Hshape : ∀ i s, sentences !! i = Some s →
  ((S i < length sentences)%nat → ends_terminalb s = true)
  ∧ ((0 < i)%nat → starts_clean s).

Lemma window_lookup k j s :
  window sentences size (k * size) !! j = Some s →
  (j < size)%nat ∧ sentences !! (k * size + j)%nat = Some s.
Proof using Type.
  clear Hsize Hshape. unfold window. intros H.
  destruct (decide (j < size)%nat) as [Hj|Hj].
  - rewrite lookup_take_lt, lookup_drop in H by done. done.
  - rewrite lookup_take_ge in H by lia. done.
Qed.

(** A window that is followed by another one ends without whitespace,
    and the one that follows starts without whitespace. *)
Lemma windows_glued k u u' :
  (join space <$> (window sentences size
                     <$> window_starts (length sentences) size)) !! k
  = Some u →
  (join space <$> (window sentences size
                     <$> window_starts (length sentences) size)) !! S k
  = Some u' →
  u ≠ [] ∧ ends_clean u ∧ starts_clean u'.
Proof using Hsize Hshape.
  unfold window_starts. rewrite !list_lookup_fmap.
  intros Hu Hu'.
  destruct (seq 0 (window_count (length sentences) size) !! k)
    as [k0|] eqn:Hk; [|done].
  destruct (seq 0 (window_count (length sentences) size) !! S k)
    as [k1|] eqn:Hk1; [|done].
  apply lookup_seq in Hk as [-> _]. apply lookup_seq in Hk1 as [-> Hlt].
  simpl in Hu, Hu'. injection Hu as <-. injection Hu' as <-.
  apply window_count_lt in Hlt; [|done].
  (* the window at [k]: full, and all its sentences are followed by one *)
  assert (Hfull : length (window sentences size (k * size)) = size).
  { unfold window. rewrite length_take, length_drop. lia. }
  destruct (window sentences size (k * size)) as [|x w _] eqn:Hw
    using rev_ind; [simpl in Hfull; lia|].
  assert (Hx : ends_terminalb x = true).
  { assert (window sentences size (k * size) !! length w = Some x) as Hl.
    { rewrite Hw. by apply list_lookup_middle. }
    apply window_lookup in Hl as [Hj Hl].
    apply (Hshape _ _ Hl). apply lookup_lt_Some in Hl.
    rewrite length_app in Hfull. simpl in Hfull. lia. }
  destruct (ends_terminalb_join_last w x Hx) as [Hne Hend].
  split; [done|]. split; [done|].
  (* the window at [S k] *)
  change (size + k * size)%nat with (S k * size)%nat.
  destruct (window sentences size (S k * size)) as [|y w'] eqn:Hw'; [done|].
  assert (Hy : sentences !! (S k * size + 0)%nat = Some y).
  { apply (window_lookup (S k) 0%nat y). by rewrite Hw'. }
  assert (Hyc : starts_clean y) by (apply (Hshape _ _ Hy); lia).
  destruct w' as [|z w'']; [done|]. rewrite join_cons_cons.
  assert (Hz : sentences !! (S k * size + 1)%nat = Some z).
  { apply (window_lookup (S k) 1%nat z). by rewrite Hw'. }
  assert (Hyt : ends_terminalb y = true).
  { apply (Hshape _ _ Hy). apply lookup_lt_Some in Hz. lia. }
  destruct y as [|c y]; [done|]. exact Hyc.
Qed.

Lemma windows_nonempty :
  Forall (λ w, w ≠ [])
    (window sentences size <$> window_starts (length sentences) size).
Proof using Hsize.
  apply Forall_forall. intros w Hw.
  apply list_elem_of_fmap in Hw as (from & -> & Hfrom).
  unfold window_starts in Hfrom.
  apply list_elem_of_fmap in Hfrom as (k & -> & Hk).
  apply elem_of_seq in Hk as [_ Hk]. simpl in Hk.
  apply window_count_lt in Hk; [|done].
  intros Hnil. apply (f_equal length) in Hnil.
  unfold window in Hnil. rewrite length_take, length_drop in Hnil.
  simpl in Hnil. lia.
Qed.

Lemma sliding_chunks_join :
  join space (sliding_chunks sentences size 0)
  = strip (join space sentences).
Proof using Hsize Hshape.
  unfold sliding_chunks. rewrite Nat.sub_0_r.
  assert (chunk_of sentences size
            <$> window_starts (length sentences) size
          = strip <$> (join space
                         <$> (window sentences size
                                <$> window_starts (length sentences) size)))
    as ->.
  { rewrite <- !list_fmap_compose. done. }
  rewrite strip_join_pieces by apply windows_glued.
  rewrite join_join by apply windows_nonempty.
  unfold window_starts. rewrite windows_concat, take_ge; [done|].
  pose proof (window_count_lt (length sentences) size
                (window_count (length sentences) size) Hsize). lia.
Qed.
End NoOverlap.

(** X8. Without overlap, joining the chunks by single spaces gives the
    sentences of the text joined by single spaces, trimmed: the chunks
    cut that text into consecutive parts and lose nothing of it. *)
Theorem chunk_text_no_overlap_join text chunk_size :
  0 < chunk_size →
  ∃ res, Chunker.returns text chunk_size 0 res
         ∧ join space res = strip (join space (re_split text)).
Proof.
  intros Hpos.
  exists (sliding_chunks (re_split text) (Z.to_nat chunk_size) 0). split.
  - exists (S (window_count (length (re_split text))
                 (Z.to_nat chunk_size))).
    unfold Chunker.chunk_text_fuel, sliding_chunks. rewrite Nat.sub_0_r.
    apply while_loop_sliding; lia.
  - apply sliding_chunks_join; [lia|].
    intros i s Hi.
    destruct (sentences_of_shape _ _ (re_split_sentences text) i s Hi)
      as (_ & H1 & H2). done.
Qed.

Lemma chunk_text_no_overlap_join_witness :
  0 < 2
  ∧ ∃ res, Chunker.returns (py " A.  B. C. ") 2 0 res
           ∧ join space res = strip (join space (re_split (py " A.  B. C. "))).
Proof.
  split; [lia | apply (chunk_text_no_overlap_join (py " A.  B. C. ") 2); lia].
Defined.


(** ** The retriever: errors, built artifacts, the prompt and the route *)

Lemma resolve_app {vec} (ctx : context vec) (a b : list Z) :
  resolve ctx (a ++ b)
  = (ta ← resolve ctx a; tb ← resolve ctx b; mret (ta ++ tb)).
Proof.
  induction a as [|idx a IH]; simpl.
  - by destruct (resolve ctx b).
  - destruct (decide (is_Some (id_mapping ctx !! pretty idx))); [|done].
    destruct (lookup_text ctx idx); simpl; [|done]. rewrite IH.
    destruct (resolve ctx a); simpl; [|done].
    by destruct (resolve ctx b).
Qed.

(** X9. When the first position of the search row whose mapped id is not
    a label of the chunk table comes after positions that all resolve,
    [retrieve_docs] raises the KeyError of that id, whatever follows in
    the row. *)
Theorem retrieve_docs_key_error {vec : Type}
    (encode : list str → list vec) (normalize : vec → vec)
    (search : list vec → list vec → Z → list (list Z))
    (ctx : context vec) (query : str) (top_k : Z)
    (pre post : list Z) (idx i : Z) (texts : list str) :
  search (index ctx) (normalize <$> encode [query]) top_k !! 0%nat
  = Some (pre ++ idx :: post) →
  resolve ctx pre = Ok texts →
  id_mapping ctx !! pretty idx = Some i →
  df ctx !! i = None →
  retrieve_docs encode normalize search ctx query top_k = Raise (KeyError i).
Proof.
  intros Hrow Hpre Hidx Hdf. unfold retrieve_docs. rewrite Hrow. simpl.
  rewrite resolve_app, Hpre. simpl.
  rewrite decide_True by (by rewrite Hidx).
  unfold lookup_text. by rewrite Hidx, Hdf.
Qed.

Lemma retrieve_docs_key_error_witness :
  Example.search (index Example.broken)
    (Example.normalize <$> Example.encode [py "B. C."]) 1 !! 0%nat
  = Some ([] ++ 0 :: [])
  ∧ resolve Example.broken [] = Ok []
  ∧ id_mapping Example.broken !! pretty 0 = Some 7
  ∧ df Example.broken !! 7 = None
  ∧ retrieve_docs Example.encode Example.normalize Example.search
      Example.broken (py "B. C.") 1 = Raise (KeyError 7).
Proof.
  split; [reflexivity|]. split; [reflexivity|].
  split; [reflexivity|]. split; [reflexivity|].
  apply (retrieve_docs_key_error Example.encode Example.normalize
           Example.search Example.broken (py "B. C.") 1 [] [] 0 7 []);
    reflexivity.
Defined.

Lemma label_text_Some chunks p text :
  label_text chunks p = Some text
  ↔ 0 ≤ p ∧ chunks !! Z.to_nat p = Some text.
Proof.
  unfold label_text. destruct (decide (0 ≤ p)) as [H0|H0].
  - split; [by intros ? | by intros [_ ?]].
  - split; [done | by intros [? _]].
Qed.

Lemma label_text_None chunks p :
  label_text chunks p = None ↔ p < 0 ∨ Z.of_nat (length chunks) ≤ p.
Proof.
  unfold label_text. destruct (decide (0 ≤ p)).
  - rewrite lookup_ge_None. lia.
  - split; [lia | done].
Qed.

Lemma resolve_loaded {vec} (ctx : context vec) (chunks : list str)
    (row : list Z) :
  id_mapping ctx = (create_dataframe chunks).2 →
  (∀ p, 0 ≤ p < Z.of_nat (length chunks) → is_Some (df ctx !! p)) →
  resolve ctx row = Ok (omap (table_text ctx (length chunks)) row).
Proof.
  intros Hmap Htable. induction row as [|p row IH]; [done|].
  cbn [resolve]. rewrite IH. cbn [omap list_omap].
  destruct (decide (0 ≤ p < Z.of_nat (length chunks))) as [Hp|Hp].
  - assert (id_mapping ctx !! pretty p = Some p) as Hm
      by (rewrite Hmap; by apply create_dataframe_mapping).
    rewrite decide_True by (by rewrite Hm).
    unfold lookup_text. rewrite Hm.
    destruct (Htable p Hp) as [text Htext].
    assert (table_text ctx (length chunks) p = Some text) as Ht
      by (unfold table_text; by rewrite decide_True).
    by rewrite Htext, Ht.
  - assert (table_text ctx (length chunks) p = None) as Ht
      by (unfold table_text; by rewrite decide_False).
    rewrite Ht. rewrite decide_False; [done|].
    intros [i Hi]. rewrite Hmap in Hi.
    apply create_dataframe_mapping in Hi as [Heq Hi].
    apply (inj pretty) in Heq. lia.
Qed.

(** X10. When the id mapping is the one [create_dataframe] wrote for a
    chunk list and the loaded chunk table has a text under every label in
    [0, len(chunks)), [retrieve_docs] raises no error whatever labels the
    search answers (and whatever the index holds): it returns the
    blank-line join of the texts the table holds under the labels of the
    row in [0, len(chunks)), in row order, and skips every other label. *)
Theorem retrieve_docs_after_build {vec : Type}
    (encode : list str → list vec) (normalize : vec → vec)
    (search : list vec → list vec → Z → list (list Z))
    (ctx : context vec) (chunks : list str) (query : str) (top_k : Z)
    (row : list Z) :
  id_mapping ctx = (create_dataframe chunks).2 →
  (∀ p, 0 ≤ p < Z.of_nat (length chunks) → is_Some (df ctx !! p)) →
  search (index ctx) (normalize <$> encode [query]) top_k !! 0%nat
  = Some row →
  retrieve_docs encode normalize search ctx query top_k
  = Ok (join blank_line (omap (table_text ctx (length chunks)) row)).
Proof.
  intros Hmap Htable Hrow. unfold retrieve_docs. rewrite Hrow.
  cbn [mbind result_bind]. by rewrite (resolve_loaded ctx chunks).
Qed.

Lemma built_table_present p :
  0 ≤ p < Z.of_nat (length Example.chunks) →
  is_Some (df Example.built !! p).
Proof.
  intros Hp. cbn [df Example.built].
  rewrite create_dataframe_table by lia. apply lookup_lt_is_Some. lia.
Qed.

Lemma retrieve_docs_after_build_witness :
  id_mapping Example.built = (create_dataframe Example.chunks).2
  ∧ (∀ p, 0 ≤ p < Z.of_nat (length Example.chunks) →
          is_Some (df Example.built !! p))
  ∧ Example.search (index Example.built)
      (Example.normalize <$> Example.encode [py "B. C."]) 5 !! 0%nat
    = Some [1; 0; 2; -1; -1]
  ∧ retrieve_docs Example.encode Example.normalize Example.search
      Example.built (py "B. C.") 5
    = Ok (join blank_line
            (omap (table_text Example.built (length Example.chunks))
               [1; 0; 2; -1; -1])).
Proof.
  split; [reflexivity|]. split; [exact built_table_present|].
  split; [reflexivity|].
  apply (retrieve_docs_after_build Example.encode Example.normalize
           Example.search Example.built Example.chunks (py "B. C.") 5);
    [reflexivity | exact built_table_present | reflexivity].
Defined.

Lemma returns_trimmed text chunk_size overlap chunks :
  Chunker.returns text chunk_size overlap chunks → Forall trimmed chunks.
Proof.
  intros [fuel H]. apply while_loop_reaches in H as (st & Hrtc & _ & ->).
  eapply loop_steps_trimmed; [exact Hrtc|]. constructor.
Qed.

Lemma join_trimmed_not_blank (texts : list str) :
  texts ≠ [] → Forall trimmed texts → strip (join blank_line texts) ≠ [].
Proof.
  destruct texts as [|t texts]; [done|]. intros _ Hall.
  destruct (join_elem blank_line (t :: texts) t) as (pre & post & ->);
    [apply list_elem_of_here|].
  apply Forall_cons in Hall as [[Hne Ht] _].
  apply strip_occurs_ne. by rewrite Ht.
Qed.

Lemma omap_label_text_subseteq chunks (row : list Z) t :
  t ∈ omap (label_text chunks) row → t ∈ chunks.
Proof.
  intros (p & _ & Hp)%list_elem_of_omap.
  apply label_text_Some in Hp as [_ Hp]. by eapply list_elem_of_lookup_2.
Qed.

Lemma table_text_read_back {vec} (ctx : context vec) (chunks : list str) p :
  (∀ p, 0 ≤ p < Z.of_nat (length chunks) →
        df ctx !! p = chunks !! Z.to_nat p) →
  table_text ctx (length chunks) p = label_text chunks p.
Proof.
  intros Hread. unfold table_text, label_text.
  destruct (decide (0 ≤ p < Z.of_nat (length chunks))) as [Hp|Hp].
  - rewrite decide_True by lia. by apply Hread.
  - destruct (decide (0 ≤ p)); [|done].
    rewrite lookup_ge_None_2 by lia. done.
Qed.

(** X11. From the chunker to the prompt.  Let the chunk list be one that
    [chunk_text] returned, the id mapping the one [create_dataframe] wrote
    for it, and the loaded chunk table hold chunk i under label i (the
    table read back as written).  Then [retrieve_docs] returns a context,
    the prompt uses it word for word as soon as one label of the search
    row lies in the table, and the placeholder sentence stands in for it
    when none does. *)
Theorem pipeline_prompt {vec : Type}
    (encode : list str → list vec) (normalize : vec → vec)
    (search : list vec → list vec → Z → list (list Z))
    (text : str) (chunk_size overlap : Z) (chunks : list str)
    (ctx : context vec) (query user_input : str) (top_k : Z)
    (row : list Z) :
  Chunker.returns text chunk_size overlap chunks →
  id_mapping ctx = (create_dataframe chunks).2 →
  (∀ p, 0 ≤ p < Z.of_nat (length chunks) →
        df ctx !! p = chunks !! Z.to_nat p) →
  search (index ctx) (normalize <$> encode [query]) top_k !! 0%nat
  = Some row →
  ∃ context,
    retrieve_docs encode normalize search ctx query top_k = Ok context
    ∧ context = join blank_line (omap (label_text chunks) row)
    ∧ (omap (label_text chunks) row = [] →
       build_prompt user_input context = prompt_with user_input no_context)
    ∧ (omap (label_text chunks) row ≠ [] →
       build_prompt user_input context = prompt_with user_input context).
Proof.
  intros Hret Hmap Hread Hrow.
  exists (join blank_line (omap (label_text chunks) row)).
  split; [|split; [done|split]].
  - unfold retrieve_docs. rewrite Hrow. cbn [mbind result_bind].
    rewrite (resolve_loaded ctx chunks); [|done|].
    + simpl. do 2 f_equal. apply list_omap_ext, Forall2_same_length_lookup.
      split; [done|]. intros i p p' Hp Hp'.
      assert (p = p') as <- by congruence.
      by apply table_text_read_back.
    + intros p Hp. rewrite Hread by done. apply lookup_lt_is_Some. lia.
  - intros ->. done.
  - intros Hne. unfold build_prompt.
    destruct (strip (join blank_line (omap (label_text chunks) row)))
      as [|c s] eqn:Hs; [|done].
    exfalso. revert Hs. apply join_trimmed_not_blank; [done|].
    apply Forall_forall. intros t Ht%omap_label_text_subseteq.
    by apply (proj1 (Forall_forall _ _) (returns_trimmed _ _ _ _ Hret)).
Qed.

Lemma pipeline_prompt_witness :
  Chunker.returns (py "A. B. C.") 2 1 [py "A. B."; py "B. C."; py "C."]
  ∧ (create_dataframe [py "A. B."; py "B. C."; py "C."]).2
    = (create_dataframe [py "A. B."; py "B. C."; py "C."]).2
  ∧ (∀ p, 0 ≤ p < Z.of_nat (length [py "A. B."; py "B. C."; py "C."]) →
          (create_dataframe [py "A. B."; py "B. C."; py "C."]).1 !! p
          = [py "A. B."; py "B. C."; py "C."] !! Z.to_nat p)
  ∧ Example.search [[1; 0]; [0; 1]; [1; 1]]
      (Example.normalize <$> Example.encode [py "B."]) 2 !! 0%nat
    = Some [2; 0]
  ∧ ∃ context,
      retrieve_docs Example.encode Example.normalize Example.search
        (Context [[1; 0]; [0; 1]; [1; 1]]
           (create_dataframe [py "A. B."; py "B. C."; py "C."]).1
           (create_dataframe [py "A. B."; py "B. C."; py "C."]).2)
        (py "B.") 2 = Ok context
      ∧ context
        = join blank_line
            (omap (label_text [py "A. B."; py "B. C."; py "C."]) [2; 0])
      ∧ (omap (label_text [py "A. B."; py "B. C."; py "C."]) [2; 0] = [] →
         build_prompt (py "What is B?") context
         = prompt_with (py "What is B?") no_context)
      ∧ (omap (label_text [py "A. B."; py "B. C."; py "C."]) [2; 0] ≠ [] →
         build_prompt (py "What is B?") context
         = prompt_with (py "What is B?") context).
Proof.
  assert (Chunker.returns (py "A. B. C.") 2 1
            [py "A. B."; py "B. C."; py "C."]) as H.
  { exists 4%nat. vm_compute. reflexivity. }
  assert (Hread : ∀ p,
            0 ≤ p < Z.of_nat (length [py "A. B."; py "B. C."; py "C."]) →
            (create_dataframe [py "A. B."; py "B. C."; py "C."]).1 !! p
            = [py "A. B."; py "B. C."; py "C."] !! Z.to_nat p).
  { intros p Hp. apply create_dataframe_table. lia. }
  split; [exact H|]. split; [reflexivity|]. split; [exact Hread|].
  split; [reflexivity|].
  apply (pipeline_prompt Example.encode Example.normalize Example.search
           (py "A. B. C.") 2 1 [py "A. B."; py "B. C."; py "C."]
           (Context [[1; 0]; [0; 1]; [1; 1]]
              (create_dataframe [py "A. B."; py "B. C."; py "C."]).1
              (create_dataframe [py "A. B."; py "B. C."; py "C."]).2)
           (py "B.") (py "What is B?") 2 [2; 0]);
    [exact H | reflexivity | exact Hread | reflexivity].
Defined.

(** X12. The route [/chat].  A body that is not an object, or whose
    "message" is not a string, leaves the route with AttributeError, and
    nothing else does so.  A missing or blank message gets the fixed
    reply without any retrieval.  When the id mapping is the one
    [create_dataframe] wrote for a chunk list, the loaded table has a text
    under every label in [0, len(chunks)) and the search answers a row for
    every query, no error of the retrieval leaves the route, and a message
    that is not blank gets what [query_mistral] answers to the prompt
    built from the trimmed message and the texts retrieved for it with
    top_k = 5. *)
Theorem chat_after_build {number vec : Type}
    (number_truthy : number → bool) (post : str → option (json number))
    (encode : list str → list vec) (normalize : vec → vec)
    (search : list vec → list vec → Z → list (list Z))
    (ctx : context vec) (chunks : list str) (body : json number) :
  id_mapping ctx = (create_dataframe chunks).2 →
  (∀ p, 0 ≤ p < Z.of_nat (length chunks) → is_Some (df ctx !! p)) →
  (∀ q, ∃ row,
     search (index ctx) (normalize <$> encode [q]) 5 !! 0%nat = Some row) →
  (chat number_truthy post encode normalize search ctx body
   = Fails AttributeError
   ↔ ¬ ∃ fields message,
         body = JObject fields
         ∧ default (JString []) (dict_get fields (py "message"))
           = JString message)
  ∧ (∀ e, chat number_truthy post encode normalize search ctx body
          ≠ Fails (RetrievalError e))
  ∧ (∀ fields message,
       body = JObject fields →
       default (JString []) (dict_get fields (py "message"))
       = JString message →
       (strip message = [] →
        chat number_truthy post encode normalize search ctx body
        = Answer (py "Please enter a valid question."))
       ∧ (strip message ≠ [] →
          ∃ row,
            search (index ctx) (normalize <$> encode [strip message]) 5
              !! 0%nat = Some row
            ∧ chat number_truthy post encode normalize search ctx body
              = Answer
                  (query_mistral number_truthy post
                     (build_prompt (strip message)
                        (join blank_line
                           (omap (table_text ctx (length chunks)) row)))))).
Proof.
  intros Hmap Htable Hsearch.
  assert (Hwell : ∀ fields message,
            body = JObject fields →
            default (JString []) (dict_get fields (py "message"))
            = JString message →
            (strip message = [] →
             chat number_truthy post encode normalize search ctx body
             = Answer (py "Please enter a valid question."))
            ∧ (strip message ≠ [] →
               ∃ row,
                 search (index ctx) (normalize <$> encode [strip message]) 5
                   !! 0%nat = Some row
                 ∧ chat number_truthy post encode normalize search ctx body
                   = Answer
                       (query_mistral number_truthy post
                          (build_prompt (strip message)
                             (join blank_line
                                (omap (table_text ctx (length chunks))
                                   row)))))).
  { intros fields message -> Hmsg. unfold chat. rewrite Hmsg. split.
    - by intros ->.
    - intros Hne. destruct (Hsearch (strip message)) as [row Hrow].
      exists row. split; [done|].
      destruct (strip message) as [|c s] eqn:Hs; [done|].
      unfold retrieve_docs. rewrite Hrow. cbn [mbind result_bind].
      by rewrite (resolve_loaded ctx chunks). }
  assert (Hcases : (∃ fields message,
                      body = JObject fields
                      ∧ default (JString []) (dict_get fields (py "message"))
                        = JString message)
                   ∨ chat number_truthy post encode normalize search ctx body
                     = Fails AttributeError).
  { destruct body as [| | | |items|fields]; try (by right).
    destruct (default (JString []) (dict_get fields (py "message")))
      as [| | |message| |] eqn:Hmsg;
      try (right; unfold chat; by rewrite Hmsg).
    left. by exists fields, message. }
  assert (Hgood : ∀ fields message,
            body = JObject fields →
            default (JString []) (dict_get fields (py "message"))
            = JString message →
            ∃ answer,
              chat number_truthy post encode normalize search ctx body
              = Answer answer).
  { intros fields message Hb Hmsg.
    destruct (Hwell fields message Hb Hmsg) as [H1 H2].
    destruct (decide (strip message = [])) as [Hnil|Hne].
    - eexists. by apply H1.
    - destruct (H2 Hne) as (row & _ & ->). by eexists. }
  split; [|split; [|done]].
  - split.
    + intros Hfail (fields & message & Hb & Hmsg).
      destruct (Hgood fields message Hb Hmsg) as [answer Ha]. congruence.
    + intros Hnot. destruct Hcases as [Hex|]; [by destruct Hnot | done].
  - intros e He. destruct Hcases as [(fields & message & Hb & Hmsg)|Hf].
    + destruct (Hgood fields message Hb Hmsg) as [answer Ha]. congruence.
    + congruence.
Qed.

Lemma chat_after_build_witness :
  id_mapping Example.built = (create_dataframe Example.chunks).2
  ∧ (∀ p, 0 ≤ p < Z.of_nat (length Example.chunks) →
          is_Some (df Example.built !! p))
  ∧ (∀ q, ∃ row,
       Example.search (index Example.built)
         (Example.normalize <$> Example.encode [q]) 5 !! 0%nat = Some row)
  ∧ ∀ e, chat ExampleChat.number_truthy ExampleChat.post
           Example.encode Example.normalize Example.search Example.built
           (JObject [(py "message", JString (py " B. C. "))])
         ≠ Fails (RetrievalError e).
Proof.
  assert (Hsearch : ∀ q, ∃ row,
            Example.search (index Example.built)
              (Example.normalize <$> Example.encode [q]) 5 !! 0%nat
            = Some row).
  { intros q. by eexists. }
  split; [reflexivity|]. split; [exact built_table_present|].
  split; [exact Hsearch|].
  exact (proj1 (proj2
           (chat_after_build ExampleChat.number_truthy ExampleChat.post
              Example.encode Example.normalize Example.search Example.built
              Example.chunks
              (JObject [(py "message", JString (py " B. C. "))])
              eq_refl built_table_present Hsearch))).
Defined.

(** ** [query_mistral]: what comes back from the model call *)

Lemma query_mistral_try_cases {number : Type}
    (number_truthy : number → bool) (post : str → option (json number))
    (prompt answer : str) :
  query_mistral_try number_truthy post prompt = Some answer →
  answer = py "No response from model." ∨ ∃ s, answer = strip s.
Proof.
  unfold query_mistral_try.
  destruct (post prompt) as [data|]; simpl; [|done].
  destruct (get_choices data) as [choices|]; simpl; [|done].
  destruct (truthy number_truthy choices); [|intros [= <-]; by left].
  destruct (item_0 choices) as [c0|]; simpl; [|done].
  destruct (contains_text c0) as [[]|]; simpl;
    [|intros [= <-]; by left|done].
  destruct (item_text c0) as [v|]; simpl; [|done].
  destruct v; simpl; try done. intros [= <-]. right. by eexists.
Qed.

(** X13. [query_mistral] raises nothing and its answer is always trimmed.
    For a response that is an object whose "choices" is a list starting
    with an object that holds a string under "text", the answer is that
    string, trimmed; without "choices", or with an empty list there, it is
    "No response from model."; when the call or the parsing of the body
    fails, it is "Error connecting to model.". *)
Theorem query_mistral_outcomes {number : Type}
    (number_truthy : number → bool) (post : str → option (json number))
    (prompt : str) :
  strip (query_mistral number_truthy post prompt)
  = query_mistral number_truthy post prompt
  ∧ (∀ fields c0 rest t,
       post prompt = Some (JObject fields) →
       dict_get fields (py "choices") = Some (JArray (JObject c0 :: rest)) →
       dict_get c0 (py "text") = Some (JString t) →
       query_mistral number_truthy post prompt = strip t)
  ∧ (∀ fields,
       post prompt = Some (JObject fields) →
       dict_get fields (py "choices") = None
       ∨ dict_get fields (py "choices") = Some (JArray []) →
       query_mistral number_truthy post prompt
       = py "No response from model.")
  ∧ (post prompt = None →
     query_mistral number_truthy post prompt
     = py "Error connecting to model.").
Proof.
  split; [|split; [|split]].
  - unfold query_mistral.
    destruct (query_mistral_try number_truthy post prompt) as [answer|] eqn:H.
    + apply query_mistral_try_cases in H as [-> | [s ->]].
      * vm_compute. reflexivity.
      * apply strip_idemp.
    + vm_compute. reflexivity.
  - intros fields c0 rest t Hpost Hchoices Htext.
    unfold query_mistral, query_mistral_try. rewrite Hpost. simpl.
    rewrite Hchoices. simpl. by rewrite Htext.
  - intros fields Hpost Hchoices.
    unfold query_mistral, query_mistral_try. rewrite Hpost. simpl.
    by destruct Hchoices as [-> | ->].
  - intros Hpost. unfold query_mistral, query_mistral_try. by rewrite Hpost.
Qed.

Lemma query_mistral_outcomes_witness :
  ExampleChat.post (py "Hello")
  = Some (JObject [(py "id", JString (py "cmpl-1"));
                   (py "choices",
                    JArray [JObject [(py "index", JNumber 0);
                                     (py "text",
                                      JString (py " Use the API. "))]])])
  ∧ query_mistral ExampleChat.number_truthy ExampleChat.post (py "Hello")
    = strip (py " Use the API. ").
Proof.
  split; [reflexivity|].
  apply (proj1 (proj2 (query_mistral_outcomes ExampleChat.number_truthy
                         ExampleChat.post (py "Hello")))
           [(py "id", JString (py "cmpl-1"));
            (py "choices",
             JArray [JObject [(py "index", JNumber 0);
                              (py "text", JString (py " Use the API. "))]])]
           [(py "index", JNumber 0);
            (py "text", JString (py " Use the API. "))]
           [] (py " Use the API. "));
    reflexivity.
Defined.

(** ** The build scripts: the artifacts fit together *)

Lemma create_dataframe_mapping_size chunks :
  size (create_dataframe chunks).2 = length chunks.
Proof.
  unfold create_dataframe, json_dump. cbn [snd].
  rewrite kmap_list_to_map by apply _.
  rewrite map_size_list_to_map.
  - by rewrite !length_fmap, length_seqZ, Nat2Z.id.
  - rewrite <- !list_fmap_compose.
    apply (NoDup_fmap_2 (pretty : Z → string)), NoDup_seqZ.
Qed.

(** X14. The artifacts as one build writes them pass the integrity
    condition that the load does not check: when the embedder gives one
    vector per chunk, the id mapping written has as many entries as the
    index has vectors, and every mapped value is a label of the chunk
    table as written. *)
Theorem built_artifacts_consistent {vec : Type}
    (encode : list str → list vec) (normalize : vec → vec)
    (chunks : list str) :
  length (encode chunks) = length chunks →
  consistent (Context (build_faiss_index encode normalize chunks).1
                (create_dataframe chunks).1 (create_dataframe chunks).2).
Proof.
  intros Hlen. split; cbn [id_mapping index df].
  - rewrite create_dataframe_mapping_size. unfold build_faiss_index.
    simpl. by rewrite length_fmap.
  - intros key i Hi. apply create_dataframe_mapping in Hi as [_ Hi].
    rewrite create_dataframe_table by lia. apply lookup_lt_is_Some. lia.
Qed.

Lemma built_artifacts_consistent_witness :
  length (Example.encode Example.chunks) = length Example.chunks
  ∧ consistent Example.built.
Proof.
  split; [reflexivity|].
  apply (built_artifacts_consistent Example.encode Example.normalize
           Example.chunks).
  reflexivity.
Defined.

(** X15. The build scripts call [chunk_text] on the corpus texts joined
    by single spaces, with the default chunk_size 50 and overlap 5.  For
    every corpus that call returns, and in the chunk table written from
    its result every row holds a text that is not empty and has no
    whitespace at either end, under a label that the id mapping sends to
    itself. *)
Theorem main_chunk_table (texts : list str) :
  ∃ chunks,
    Chunker.returns (join space texts) 50 5 chunks
    ∧ ∀ p text,
        (create_dataframe chunks).1 !! p = Some text →
        trimmed text ∧ (create_dataframe chunks).2 !! pretty p = Some p.
Proof.
  destruct (while_loop_terminates (re_split (join space texts)) 50 5
              (S (length (re_split (join space texts)))) Chunker.init)
    as [chunks H]; [lia | simpl; lia |].
  assert (Hret : Chunker.returns (join space texts) 50 5 chunks)
    by (by eexists).
  exists chunks. split; [done|]. intros p text Hp.
  unfold create_dataframe in Hp. cbn [fst] in Hp.
  apply lookup_map_seqZ_Some in Hp as [Hp0 Hp].
  rewrite Z.sub_0_r in Hp. split.
  - apply (proj1 (Forall_forall _ _) (returns_trimmed _ _ _ _ Hret)).
    by eapply list_elem_of_lookup_2.
  - apply create_dataframe_mapping. split; [done|].
    apply lookup_lt_Some in Hp. lia.
Qed.

Lemma main_chunk_table_witness :
  ∃ chunks,
    Chunker.returns (join space [py "A. B."; py "C."]) 50 5 chunks
    ∧ (create_dataframe chunks).1 !! 0 = Some (py "A. B. C.")
    ∧ trimmed (py "A. B. C.")
    ∧ (create_dataframe chunks).2 !! pretty 0 = Some 0.
Proof.
  destruct (main_chunk_table [py "A. B."; py "C."])
    as (chunks & Hret & Hrows).
  assert (Hrun : Chunker.returns (join space [py "A. B."; py "C."]) 50 5
                   [py "A. B. C."]).
  { exists 2%nat. vm_compute. reflexivity. }
  assert (Heq : chunks = [py "A. B. C."]) by (by eapply returns_unique).
  exists chunks. split; [exact Hret|].
  assert (Hrow : (create_dataframe chunks).1 !! 0 = Some (py "A. B. C."))
    by (rewrite Heq; reflexivity).
  split; [exact Hrow|]. exact (Hrows 0 (py "A. B. C.") Hrow).
Defined.
